(** * dagenslunch: the lunch-menu extractors, the assembler and the renderer
    of [build.py], embedded as Rocq functions.

    Python strings are sequences of Unicode code points ([pystr]); the
    BeautifulSoup tree is a rose tree of elements, text and comments; the
    regular expressions of the source are written as the backtracking
    matchers the [re] engine runs for them; the network and the clock are
    parameters of the functions that use them. *)

From Stdlib Require Import Ascii String List NArith Bool Arith Lia.
Import ListNotations.

Local Open Scope N_scope.

(** ** Python strings *)

Definition char := N.
Definition pystr := list char.

(** UTF-8 decoding of a source literal into its code points (sequences of
    one, two and three bytes, which cover every literal of [build.py]). *)
Fixpoint utf8_decode (bytes : list N) : pystr :=
  match bytes with
  | [] => []
  | b0 :: r0 =>
      if b0 <? 128 then b0 :: utf8_decode r0
      else if b0 <? 224 then
        match r0 with
        | b1 :: r1 => ((b0 - 192) * 64 + (b1 - 128)) :: utf8_decode r1
        | [] => []
        end
      else
        match r0 with
        | b1 :: b2 :: r2 =>
            ((b0 - 224) * 4096 + (b1 - 128) * 64 + (b2 - 128)) :: utf8_decode r2
        | _ => []
        end
  end.

Definition u (s : string) : pystr :=
  utf8_decode (map N_of_ascii (list_ascii_of_string s)).

Arguments u s%_string.

Definition SPACE : char := 32.
Definition LF : char := 10.
Definition CR : char := 13.

Definition char_in (c : char) (cs : pystr) : bool := existsb (N.eqb c) cs.

Definition is_empty {A} (l : list A) : bool :=
  match l with [] => true | _ => false end.

(** Truthiness of a Python sequence. *)
Definition truthy {A} (l : list A) : bool := negb (is_empty l).

(** [str.isspace] on one code point; also the class [\s] of [re] on [str]
    patterns. *)
Definition is_space (c : char) : bool :=
  ((9 <=? c) && (c <=? 13)) || ((28 <=? c) && (c <=? 32))
  || (c =? 133) || (c =? 160) || (c =? 5760)
  || ((8192 <=? c) && (c <=? 8202))
  || (c =? 8232) || (c =? 8233) || (c =? 8239) || (c =? 8287) || (c =? 12288).

(** The line boundaries of [str.splitlines] (CR LF counts as one). *)
Definition is_linebreak (c : char) : bool :=
  char_in c [10; 11; 12; 13; 28; 29; 30; 133; 8232; 8233].

(** [text.splitlines()]: [cur] is the line being read. *)
Fixpoint splitlines_from (cur : pystr) (s : pystr) : list pystr :=
  match s with
  | [] => if is_empty cur then [] else [cur]
  | c :: r =>
      if c =? CR then
        match r with
        | d :: r' =>
            if d =? LF then cur :: splitlines_from [] r'
            else cur :: splitlines_from [] r
        | [] => cur :: splitlines_from [] r
        end
      else if is_linebreak c then cur :: splitlines_from [] r
      else splitlines_from (cur ++ [c]) r
  end.

Definition splitlines (s : pystr) : list pystr := splitlines_from [] s.

(** [sep.join(parts)] *)
Fixpoint join (sep : pystr) (parts : list pystr) : pystr :=
  match parts with
  | [] => []
  | [p] => p
  | p :: rest => p ++ sep ++ join sep rest
  end.

(** [str.strip]: [p] tells the characters to remove at both ends. *)
Fixpoint lstrip_by (p : char -> bool) (s : pystr) : pystr :=
  match s with
  | [] => []
  | c :: r => if p c then lstrip_by p r else s
  end.

Definition rstrip_by (p : char -> bool) (s : pystr) : pystr :=
  rev (lstrip_by p (rev s)).

Definition strip_by (p : char -> bool) (s : pystr) : pystr :=
  rstrip_by p (lstrip_by p s).

(** [s.strip()] *)
Definition strip_ws (s : pystr) : pystr := strip_by is_space s.

(** [s.strip(chars)] *)
Definition strip_chars (chars : pystr) (s : pystr) : pystr :=
  strip_by (fun c => char_in c chars) s.

Definition starts_with (p s : pystr) : bool :=
  (fix go (p s : pystr) : bool :=
     match p, s with
     | [], _ => true
     | a :: p', b :: s' => (a =? b) && go p' s'
     | _ :: _, [] => false
     end) p s.

Definition pystr_eqb (a b : pystr) : bool :=
  (length a =? length b)%nat && starts_with a b.

(** ** The tables of the Unicode database the program relies on

    [str.upper], [str.lower], [str.capitalize], the character equivalence of
    [re.IGNORECASE] (pattern character, subject character) and the class
    [\d].  The program is stated over any such tables. *)
Class Unicode := {
  str_upper : pystr -> pystr;
  str_lower : pystr -> pystr;
  str_capitalize : pystr -> pystr;
  re_ieq : char -> char -> bool;
  is_digit : char -> bool
}.

(** The tables for text in Basic Latin and the Latin-1 Supplement.  There a
    letter has its two forms 32 apart, but for the sharp s, the y with
    diaeresis and the micro sign, whose upper-case forms lie outside or are
    two letters; [re.IGNORECASE] equates two characters of these blocks when
    their lower-case forms agree, and [\d] is the ten digits.  Code points
    beyond U+00FF are left as they are. *)
Module Latin1.

Definition is_lower_letter (c : char) : bool :=
  ((97 <=? c) && (c <=? 122))
  || ((224 <=? c) && (c <=? 254) && negb (c =? 247)).

Definition is_upper_letter (c : char) : bool :=
  ((65 <=? c) && (c <=? 90))
  || ((192 <=? c) && (c <=? 222) && negb (c =? 215)).

Definition upper_char (c : char) : pystr :=
  if is_lower_letter c then [c - 32]
  else if c =? 223 then [83; 83]
  else if c =? 255 then [376]
  else if c =? 181 then [924]
  else [c].

Definition lower_char (c : char) : char :=
  if is_upper_letter c then c + 32 else c.

(** The title-case form, which [str.capitalize] gives to the first
    character. *)
Definition title_char (c : char) : pystr :=
  if c =? 223 then [83; 115] else upper_char c.

Definition capitalize (s : pystr) : pystr :=
  match s with
  | [] => []
  | c :: r => title_char c ++ map lower_char r
  end.

Definition ieq (a b : char) : bool := lower_char a =? lower_char b.

Definition digit (c : char) : bool := (48 <=? c) && (c <=? 57).

End Latin1.

#[export] Instance latin1 : Unicode := {|
  str_upper := flat_map Latin1.upper_char;
  str_lower := map Latin1.lower_char;
  str_capitalize := Latin1.capitalize;
  re_ieq := Latin1.ieq;
  is_digit := Latin1.digit
|}.

(** ** Regular-expression plumbing

    [re.sub(pattern, repl, s)]: the scan tries the pattern at the current
    position; a match is replaced and the scan resumes after it, otherwise
    the character is copied and the scan moves one position on.  A matcher
    takes the text at the current position and returns the text after the
    match.  None of the patterns substituted in [build.py] matches the empty
    string, so a match always consumes, and the length of the subject is
    enough fuel. *)
Fixpoint re_sub_loop (m : pystr -> option pystr) (repl : pystr)
         (fuel : nat) (s : pystr) : pystr :=
  match fuel with
  | O => s
  | S fuel' =>
      match s with
      | [] => []
      | c :: r =>
          match m s with
          | Some rest => repl ++ re_sub_loop m repl fuel' rest
          | None => c :: re_sub_loop m repl fuel' r
          end
      end
  end.

Definition re_sub (m : pystr -> option pystr) (repl s : pystr) : pystr :=
  re_sub_loop m repl (length s) s.

(** The pattern [\s+]: one whitespace character, then greedily all that
    follow. *)
Definition match_ws_plus (s : pystr) : option pystr :=
  match s with
  | c :: r => if is_space c then Some (lstrip_by is_space r) else None
  | [] => None
  end.

(** The patterns [\s*/\s*] and [\s*\|\s*]: the greedy [\s*] takes the whole
    run of whitespace; giving characters back cannot help, since the
    character that would then be compared with the separator is whitespace. *)
Definition match_sep (sep : char) (s : pystr) : option pystr :=
  match lstrip_by is_space s with
  | c :: r => if c =? sep then Some (lstrip_by is_space r) else None
  | [] => None
  end.

(** ** The Text Normalizer *)

Definition STRIP_CHARS : pystr := Eval vm_compute in u " •*-–—. ".

Definition clean_line (ln : pystr) : pystr :=
  strip_chars STRIP_CHARS (re_sub match_ws_plus [SPACE] ln).

Definition clean_lines (text : pystr) : list pystr :=
  let lines := map clean_line (splitlines text) in
  filter truthy lines.

(** ** The parsed document

    What BeautifulSoup hands to the extractors: elements with a name and
    children, text nodes ([NavigableString]) and comments, which
    [find_all(text=True)] returns and [get_text] leaves out.  An [element]
    is a node seen at its place in the tree, with the siblings that follow
    it; the document is the root element. *)
#[local] Set Warnings "-register-all".

Inductive node :=
| Tag (name : string) (children : list node)
| NavigableString (text : pystr)
| Comment (text : pystr).

Record element := mkElement { el_node : node; el_after : list node }.

Definition document (contents : list node) : node := Tag "[document]" contents.

(** [el.name]: [None] for a string. *)
Definition el_name (e : element) : option string :=
  match el_node e with
  | Tag n _ => Some n
  | _ => None
  end.

Definition name_in (names : list string) (e : element) : bool :=
  match el_name e with
  | Some n => existsb (String.eqb n) names
  | None => false
  end.

(** [el.find_next_sibling()]: the next sibling that is an element. *)
Fixpoint next_tag (siblings : list node) : option element :=
  match siblings with
  | [] => None
  | n :: r =>
      match n with
      | Tag _ _ => Some (mkElement n r)
      | _ => next_tag r
      end
  end.

Definition find_next_sibling (e : element) : option element :=
  next_tag (el_after e).

(** The descendants of a node, in document order. *)
Fixpoint descendants (n : node) : list element :=
  match n with
  | Tag _ children =>
      (fix walk (l : list node) : list element :=
         match l with
         | [] => []
         | c :: r => mkElement c r :: descendants c ++ walk r
         end) children
  | _ => []
  end.

(** [root.find_all(names)] *)
Definition find_all (names : list string) (root : node) : list element :=
  filter (name_in names) (descendants root).

(** [soup.find_all(text=True)], each string with its [.parent]. *)
Fixpoint strings_with_parent (n : node) (after : list node)
  : list (pystr * element) :=
  match n with
  | Tag _ children =>
      (fix walk (l : list node) : list (pystr * element) :=
         match l with
         | [] => []
         | c :: r =>
             match c with
             | Tag _ _ => strings_with_parent c r ++ walk r
             | NavigableString s => (s, mkElement n after) :: walk r
             | Comment s => (s, mkElement n after) :: walk r
             end
         end) children
  | _ => []
  end.

(** The strings [get_text] joins. *)
Fixpoint all_strings (n : node) : list pystr :=
  match n with
  | Tag _ children => flat_map all_strings children
  | NavigableString s => [s]
  | Comment _ => []
  end.

(** [el.get_text(separator, strip=True)] *)
Definition get_text (separator : pystr) (e : element) : pystr :=
  join separator (filter truthy (map strip_ws (all_strings (el_node e)))).

(** ** Extractor A *)

Definition WEEKDAYS_FULL : list pystr :=
  Eval vm_compute in
    map u ["MÅNDAG"; "TISDAG"; "ONSDAG"; "TORSDAG"; "FREDAG"; "LÖRDAG";
           "SÖNDAG"]%string.

Definition stop_words : list pystr :=
  Eval vm_compute in
    WEEKDAYS_FULL ++ map u ["PRIS OCH ÖPPETTIDER"; "VECKANS VEGETARISKA"]%string.

Definition str_in (s : pystr) (l : list pystr) : bool := existsb (pystr_eqb s) l.

Section Extractors.

Context {U : Unicode}.

(** The elements whose text is the weekday label. *)
Definition fei_candidates (soup : node) (weekday_upper : pystr) : list element :=
  filter
    (fun tag =>
       let txt := strip_ws (get_text [SPACE] tag) in
       pystr_eqb (str_upper txt) weekday_upper)
    (find_all ["h2"; "h3"; "h4"; "strong"; "p"]%string soup).

(** The condition of the skipping loop on [next_el]. *)
Definition is_blank (next_el : element) : bool :=
  match el_name next_el with
  | None => true
  | Some n => String.eqb n "br"
  end
  || negb (truthy (get_text [] next_el)).

(** The skipping loop; [hops_left] is [6 - hops]. *)
Fixpoint skip_blank (hops_left : nat) (next_el : option element)
  : option element :=
  match next_el with
  | None => None
  | Some el =>
      match hops_left with
      | O => Some el
      | S h =>
          if is_blank el then skip_blank h (find_next_sibling el)
          else Some el
      end
  end.

(** The entries of a list container. *)
Definition list_items (next_el : element) : list pystr :=
  filter truthy
    (map (get_text [SPACE]) (find_all ["li"%string] (el_node next_el))).

Definition is_stop (t : pystr) : bool :=
  truthy t && str_in (str_upper t) stop_words.

(** The walk over the running text; [steps_left] is [12 - steps] and the
    result is [block_text]. *)
Fixpoint walk_block (steps_left : nat) (walker : option element) : list pystr :=
  match steps_left, walker with
  | S n, Some w =>
      let t := get_text [SPACE] w in
      if is_stop t then []
      else (if truthy t then [t] else []) ++ walk_block n (find_next_sibling w)
  | _, _ => []
  end.

Definition longer_than_3 (ln : pystr) : bool := (3 <? length ln)%nat.

(** What one candidate appends to [items]. *)
Definition fei_candidate_items (tag : element) : list pystr :=
  match skip_blank 6 (find_next_sibling tag) with
  | Some next_el =>
      if name_in ["ul"%string] next_el then list_items next_el
      else
        let block_text := walk_block 12 (Some next_el) in
        filter longer_than_3 (clean_lines (join [LF] block_text))
  | None => []
  end.

(** The loop over the candidates, with its running [items] and its [break]. *)
Fixpoint fei_loop (candidates : list element) (items : list pystr)
  : list pystr :=
  match candidates with
  | [] => items
  | tag :: rest =>
      let items := items ++ fei_candidate_items tag in
      if truthy items then items else fei_loop rest items
  end.

Definition parse_fei (soup : node) (weekday_upper : pystr) : list pystr :=
  fei_loop (fei_candidates soup weekday_upper) [].

(** ** Extractor B *)

(** A literal under [re.IGNORECASE], tried at the start of [s]: the text
    after it when it matches. *)
Fixpoint ci_prefix (pat s : pystr) : option pystr :=
  match pat with
  | [] => Some s
  | a :: pat' =>
      match s with
      | b :: s' => if re_ieq a b then ci_prefix pat' s' else None
      | [] => None
      end
  end.

Definition ci_starts (pat s : pystr) : bool :=
  match ci_prefix pat s with Some _ => true | None => false end.

(** [re.search] of a pattern given by its test at one position: every
    position is tried, the end of the text included. *)
Fixpoint search_bool (m : pystr -> bool) (s : pystr) : bool :=
  m s || match s with [] => false | _ :: r => search_bool m r end.

(** [\s+\d+] after [Vecka]: a whitespace character, then a digit or the
    same again. *)
Fixpoint ws_plus_digit (s : pystr) : bool :=
  match s with
  | c :: r =>
      is_space c
      && (match r with d :: _ => is_digit d | [] => false end || ws_plus_digit r)
  | [] => false
  end.

Definition has_lunchmeny (t : pystr) : bool :=
  search_bool (ci_starts (u "Lunchmeny")) t.

Definition has_vecka (t : pystr) : bool :=
  search_bool
    (fun s => match ci_prefix (u "Vecka") s with
              | Some rest => ws_plus_digit rest
              | None => false
              end) t.

(** The anchor: the parent of the first string with both markers, else the
    first block element whose text has the first marker. *)
Definition find_container (soup : node) : option element :=
  match
    find (fun sp => let t := strip_ws (fst sp) in has_lunchmeny t && has_vecka t)
         (strings_with_parent soup [])
  with
  | Some sp => Some (snd sp)
  | None =>
      find (fun el => has_lunchmeny (get_text [SPACE] el))
           (find_all ["h1"; "h2"; "h3"; "p"; "div"]%string soup)
  end.

(** The walk from the container; [steps_left] is [80 - steps] and the result
    is [text]. *)
Fixpoint container_texts (steps_left : nat) (cur : option element) : list pystr :=
  match steps_left, cur with
  | S n, Some c => get_text [SPACE] c :: container_texts n (find_next_sibling c)
  | _, _ => []
  end.

Definition combined_text (soup : node) : pystr :=
  let text :=
    match find_container soup with
    | Some container => container_texts 80 (Some container)
    | None => []
    end in
  join [LF] (filter truthy text).

Definition wd_order : list pystr :=
  Eval vm_compute in
    map u ["Måndag"; "Tisdag"; "Onsdag"; "Torsdag"; "Fredag"]%string.

Definition trailing_markers : list pystr :=
  Eval vm_compute in
    map u ["Kontakt"; "Öppettider"; "Veckans vegetariska"]%string.

(** [$] without [re.MULTILINE]: the end of the text, or just before a
    newline that ends the text. *)
Definition at_end (s : pystr) : bool :=
  match s with
  | [] => true
  | [c] => c =? LF
  | _ => false
  end.

(** The lookahead, tried at the start of [s]; the [\s*] after a weekday name
    adds nothing to a lookahead. *)
Definition at_boundary (s : pystr) : bool :=
  existsb (fun w => ci_starts w s) wd_order
  || existsb (fun w => ci_starts w s) trailing_markers
  || at_end s.

(** The lazy [.+?] of the group, once it has its first character: one more
    character at a time until the lookahead holds.  With [re.DOTALL] every
    character is taken, and the end of the text satisfies [$]. *)
Fixpoint lazy_until (s : pystr) : pystr :=
  if at_boundary s then []
  else match s with
       | [] => []
       | c :: r => c :: lazy_until r
       end.

(** The group [(.+?)] followed by the lookahead. *)
Definition capture_block (s : pystr) : option pystr :=
  match s with
  | [] => None
  | c :: r => Some (c :: lazy_until r)
  end.

(** The greedy [\s*] before the group: as much whitespace as there is, one
    character given back at a time when what follows fails. *)
Fixpoint skip_ws_capture (s : pystr) : option pystr :=
  match s with
  | [] => capture_block []
  | c :: r =>
      if is_space c then
        match skip_ws_capture r with
        | Some block => Some block
        | None => capture_block s
        end
      else capture_block s
  end.

(** The whole pattern tried at the start of [s].  [day_name_cap] stands in
    the pattern as it is: it is a literal for the weekday labels, which have
    no character special to [re]. *)
Definition match_day_at (day_name_cap s : pystr) : option pystr :=
  match ci_prefix day_name_cap s with
  | Some rest => skip_ws_capture rest
  | None => None
  end.

(** [re.search(...)]; the result is [m.group(1)]. *)
Fixpoint search_day (day_name_cap s : pystr) : option pystr :=
  match match_day_at day_name_cap s with
  | Some block => Some block
  | None =>
      match s with
      | [] => None
      | _ :: r => search_day day_name_cap r
      end
  end.

Definition boilerplate_prefixes : list pystr :=
  Eval vm_compute in map u ["Pris"; "11:"; "Dagens"; "Veckans"]%string.

(** [re.match(r"^Pris|^11:|^Dagens|^Veckans", ln, re.I)] *)
Definition is_boilerplate (ln : pystr) : bool :=
  existsb (fun p => ci_starts p ln) boilerplate_prefixes.

Definition keep_line (ln : pystr) : bool :=
  longer_than_3 ln && negb (is_boilerplate ln).

Definition parse_cirkeln (soup : node) (weekday_upper : pystr) : list pystr :=
  let full := combined_text soup in
  let day_name_cap := str_capitalize weekday_upper in
  match search_day day_name_cap full with
  | None => []
  | Some block => filter keep_line (clean_lines block)
  end.

End Extractors.

(** ** The Menu Assembler *)

Definition SOURCE_URLS : list (pystr * pystr) :=
  Eval vm_compute in
    [(u "FEI", u "https://www.fei.se/meny-fei-restaurant-lounge");
     (u "Cirkeln", u "https://cirkelnstockholm.se/restauranger/restaurang-cirkeln/")].

Definition DISPLAY_NAMES : list (pystr * pystr) :=
  Eval vm_compute in
    [(u "FEI", u "FEI Restaurang & Lounge");
     (u "Cirkeln", u "Restaurang Cirkeln")].

Definition LOGOS : list (pystr * pystr) :=
  Eval vm_compute in
    [(u "FEI", u "https://res.cloudinary.com/emg-prod/image/upload/c_limit,h_100,w_200/v1/institutes/institute10621/logos/logo");
     (u "Cirkeln", u "https://cirkelnstockholm.se/wp-content/uploads/2021/09/c_restaurang-S-150x150.png")].

(** [d.get(key, default)] *)
Fixpoint dict_get (d : list (pystr * pystr)) (key default : pystr) : pystr :=
  match d with
  | [] => default
  | (k, v) :: rest => if pystr_eqb k key then v else dict_get rest key default
  end.

Record DayMenu := mkDayMenu { restaurant_key : pystr; items : list pystr }.

(** A call that returns or raises; an exception is the text [str(e)] that
    the handler of [main] prints. *)
Inductive result (A : Type) :=
| Ok (a : A)
| Raise (e : pystr).

Arguments Ok {A} a.
Arguments Raise {A} e.

(** [WEEKDAYS_FULL[dt.weekday()]] *)
Definition today_weekday_sv_upper (weekday : nat) : pystr :=
  nth weekday WEEKDAYS_FULL [].

Section Assembler.

Context {U : Unicode}.

(** The network is the parameter [fetch]. *)
Definition get_menu_for (fetch : pystr -> result node)
           (key url weekday_upper : pystr) : result DayMenu :=
  match fetch url with
  | Raise e => Raise e
  | Ok soup =>
      let items :=
        if pystr_eqb (str_lower key) (u "fei") then parse_fei soup weekday_upper
        else if pystr_eqb (str_lower key) (u "cirkeln") then
               parse_cirkeln soup weekday_upper
             else [] in
      Ok (mkDayMenu key items)
  end.

Definition error_item (e : pystr) : pystr :=
  u "(fel vid hämtning: " ++ e ++ u ")".

(** The loop of [main] over the registry; [get key url] is the call inside
    [try]. *)
Fixpoint main_loop (get : pystr -> pystr -> result DayMenu)
         (sources : list (pystr * pystr)) (day_menus : list DayMenu)
  : list DayMenu :=
  match sources with
  | [] => day_menus
  | (key, url) :: rest =>
      match get key url with
      | Ok dm => main_loop get rest (day_menus ++ [dm])
      | Raise e =>
          main_loop get rest (day_menus ++ [mkDayMenu key [error_item e]])
      end
  end.

Definition assemble (get : pystr -> pystr -> result DayMenu) : list DayMenu :=
  main_loop get SOURCE_URLS [].

(** ** The Page Renderer *)

Definition BR : pystr := Eval vm_compute in u "<br>".
Definition SLASH : char := 47.
Definition PIPE : char := 124.

Definition force_linebreaks (text : pystr) : pystr :=
  let t := re_sub (match_sep SLASH) BR text in
  let t := re_sub (match_sep PIPE) BR t in
  t.

(** The template is written with ` for the double quote. *)
Definition dq (s : pystr) : pystr :=
  map (fun c => if c =? 96 then 34 else c) s.

Definition page_head (weekday_upper : pystr) : pystr :=
  dq (u "<!doctype html>
<meta charset=`utf-8`>
<meta name=`viewport` content=`width=device-width,initial-scale=1`>
<meta http-equiv=`refresh` content=`1800`>
<title>Dagens lunch</title>
<style>
  :root { --fg:#111; --muted:#555; --card:#fff; --bg:#f6f7f9; }
  @media (prefers-color-scheme: dark) {
    :root { --fg:#eaeaea; --muted:#a0a0a0; --card:#171717; --bg:#0e0f11; }
  }
  body{font-family:system-ui,-apple-system,Segoe UI,Roboto,Helvetica,Arial,sans-serif;background:var(--bg);color:var(--fg);margin:0}
  .wrap{max-width:760px;margin:32px auto;padding:0 16px}
  .card{background:var(--card);border-radius:16px;box-shadow:0 6px 24px rgba(0,0,0,.08);padding:24px}
  h1{margin:0 0 6px 0;font-size:28px}
  h2{margin:0 0 16px 0;font-size:18px;letter-spacing:1px;color:var(--muted)}
  .rest{padding:14px 0;border-top:1px solid rgba(128,128,128,.25)}
  .rest:first-of-type{border-top:none}
  .head{display:flex;align-items:center;gap:12px;margin-bottom:6px}
  .logo{width:28px;height:28px;object-fit:contain;border-radius:6px;flex:0 0 28px;filter:contrast(1.1)}
  .name{font-weight:700}
  .dish{margin:4px 0;line-height:1.5}
  .footer{margin-top:10px;color:var(--muted);font-size:12px}
</style>
<div class=`wrap`>
  <div class=`card`>
    <h1>Dagens lunch by PMO IT</h1>
    <h2>")
  ++ weekday_upper
  ++ dq (u "</h2>
").

Definition page_foot (updated_at : pystr) : pystr :=
  dq (u "    <div class=`footer`>Uppdaterad: ")
  ++ updated_at
  ++ dq (u " · Tidszon: Europe/Stockholm</div>
  </div>
</div>
").

Definition dish_line (dish : pystr) : pystr :=
  u "      <div class='dish'>" ++ force_linebreaks dish ++ u "</div>" ++ [LF].

Definition no_menu_line (weekday_upper : pystr) : pystr :=
  u "      <div class='dish'><em>ingen meny hittad för "
  ++ str_capitalize weekday_upper ++ u "</em></div>" ++ [LF].

(** One turn of the loop over [day_menus]. *)
Definition render_menu (weekday_upper : pystr) (html : pystr) (dm : DayMenu)
  : pystr :=
  let key := restaurant_key dm in
  let name := dict_get DISPLAY_NAMES key key in
  let logo := dict_get LOGOS key [] in
  let html := html ++ u "    <div class='rest'>" ++ [LF]
                   ++ u "      <div class='head'>" ++ [LF] in
  let html :=
    if truthy logo then
      html ++ u "        <img class='logo' src='" ++ logo ++ u "' alt='"
           ++ name ++ u " logotyp'>" ++ [LF]
    else html in
  let html := html ++ u "        <div class='name'>" ++ name ++ u "</div>"
                   ++ [LF] ++ u "      </div>" ++ [LF] in
  let html :=
    if truthy (items dm) then
      fold_left (fun html dish => html ++ dish_line dish) (items dm) html
    else html ++ no_menu_line weekday_upper in
  html ++ u "    </div>" ++ [LF].

(** [updated_at] is the formatted clock reading. *)
Definition render_html (updated_at weekday_upper : pystr)
           (day_menus : list DayMenu) : pystr :=
  let html := page_head weekday_upper in
  let html := fold_left (render_menu weekday_upper) day_menus html in
  html ++ page_foot updated_at.

(** [main], up to the write of the file: the page it writes. *)
Definition main (fetch : pystr -> result node) (weekday : nat)
           (updated_at : pystr) : pystr :=
  let weekday_upper := today_weekday_sv_upper weekday in
  let day_menus :=
    assemble (fun key url => get_menu_for fetch key url weekday_upper) in
  render_html updated_at weekday_upper day_menus.

End Assembler.

(** * The vocabulary of the statements *)

(** A matcher consumes when what it leaves is shorter than what it was
    given. *)
Definition consuming (m : pystr -> option pystr) : Prop :=
  forall s rest, m s = Some rest -> (length rest < length s)%nat.

(** The text begins with whitespace. *)
Definition head_is_space (s : pystr) : bool :=
  match s with
  | c :: _ => is_space c
  | [] => false
  end.

(** Every whitespace character of the line is a space, and no whitespace
    follows it: the runs of whitespace are single spaces. *)
Definition ws_collapsed (ln : pystr) : Prop :=
  forall a c b, ln = a ++ c :: b -> is_space c = true ->
    c = SPACE /\ head_is_space b = false.

(** The line neither begins nor ends with a decorative character. *)
Definition clean_ends (ln : pystr) : Prop :=
  (forall c r, ln = c :: r -> char_in c STRIP_CHARS = false)
  /\ (forall r c, ln = r ++ [c] -> char_in c STRIP_CHARS = false).

(** [ws_collapsed], computed. *)
Fixpoint ws_collapsedb (s : pystr) : bool :=
  match s with
  | [] => true
  | c :: r =>
      (if is_space c then (c =? SPACE) && negb (head_is_space r) else true)
      && ws_collapsedb r
  end.

(** The members of [l] that [keep] holds for, in the order of [l]: [k] is
    obtained from [l] by dropping members. *)
Inductive kept_from {A} (keep : A -> Prop) : list A -> list A -> Prop :=
| kept_nil : kept_from keep [] []
| kept_take x l k :
    keep x -> kept_from keep l k -> kept_from keep (x :: l) (x :: k)
| kept_drop x l k :
    ~ keep x -> kept_from keep l k -> kept_from keep (x :: l) k.

(** The siblings of a place in the tree that are elements, in order: what
    repeated [find_next_sibling()] visits. *)
Fixpoint sibling_tags (siblings : list node) : list element :=
  match siblings with
  | [] => []
  | n :: r =>
      match n with
      | Tag _ _ => mkElement n r :: sibling_tags r
      | _ => sibling_tags r
      end
  end.

(** The elements after [e] among its siblings. *)
Definition following (e : element) : list element :=
  sibling_tags (el_after e).

(** The entry that one turn of the loop of [main] appends. *)
Definition entry_for (get : pystr -> pystr -> result DayMenu)
           (source : pystr * pystr) : DayMenu :=
  match get (fst source) (snd source) with
  | Ok dm => dm
  | Raise e => mkDayMenu (fst source) [error_item e]
  end.

(** The text is whitespace only. *)
Definition all_space (ws : pystr) : Prop :=
  Forall (fun c => is_space c = true) ws.

(** No character of the line is a line boundary. *)
Definition no_break (ln : pystr) : Prop :=
  Forall (fun c => is_linebreak c = false) ln.

(** A line boundary of the text: CR LF, or one boundary character. *)
Definition line_break (br : pystr) : Prop :=
  br = [CR; LF] \/ exists c, br = [c] /\ is_linebreak c = true.

(** The physical lines of a text: the pieces between its line boundaries, a
    CR that is followed by LF making one boundary with it, and no empty line
    after the last boundary. *)
Inductive physical_lines : pystr -> list pystr -> Prop :=
| lines_none : physical_lines [] []
| lines_last ln : ln <> [] -> no_break ln -> physical_lines ln [ln]
| lines_break ln br rest lines :
    no_break ln -> line_break br ->
    (br = [CR] -> forall rest', rest <> LF :: rest') ->
    physical_lines rest lines ->
    physical_lines (ln ++ br ++ rest) (ln :: lines).

(** [out] is [raw] with each maximal run of whitespace replaced by one
    space, the other characters kept as they are. *)
Inductive collapsed_from : pystr -> pystr -> Prop :=
| collapsed_none : collapsed_from [] []
| collapsed_char c r out :
    is_space c = false -> collapsed_from r out ->
    collapsed_from (c :: r) (c :: out)
| collapsed_run ws r out :
    ws <> [] -> all_space ws -> head_is_space r = false ->
    collapsed_from r out ->
    collapsed_from (ws ++ r) (SPACE :: out).

(** [out] is [s] without the decorative characters at its two ends. *)
Definition stripped_from (s out : pystr) : Prop :=
  exists a b,
    s = a ++ out ++ b
    /\ Forall (fun c => char_in c STRIP_CHARS = true) a
    /\ Forall (fun c => char_in c STRIP_CHARS = true) b
    /\ clean_ends out.

(** [ln] is the physical line [raw], normalized. *)
Definition normalized_from (raw ln : pystr) : Prop :=
  exists mid, collapsed_from raw mid /\ stripped_from mid ln.

(** The text does not end with whitespace. *)
Definition ends_clean (a : pystr) : Prop :=
  forall x c, a = x ++ [c] -> is_space c = false.

(** The separators of a dish text. *)
Definition is_sep (c : char) : bool := (c =? SLASH) || (c =? PIPE).

(** The head of the card of a restaurant: its logo, when it has one, and its
    name. *)
Definition card_open (key : pystr) : pystr :=
  let name := dict_get DISPLAY_NAMES key key in
  let logo := dict_get LOGOS key [] in
  u "    <div class='rest'>" ++ [LF] ++ u "      <div class='head'>" ++ [LF]
  ++ (if truthy logo then
        u "        <img class='logo' src='" ++ logo ++ u "' alt='" ++ name
          ++ u " logotyp'>" ++ [LF]
      else [])
  ++ u "        <div class='name'>" ++ name ++ u "</div>" ++ [LF]
  ++ u "      </div>" ++ [LF].

(** The end of a card. *)
Definition card_close : pystr := u "    </div>" ++ [LF].

Section Vocabulary.

Context {U : Unicode}.

(** The text of a sibling is a stop marker. *)
Definition boundary_text (t : pystr) : Prop :=
  t <> [] /\ In (str_upper t) stop_words.

(** [h] is the literal [p] in some letter case, as [re.IGNORECASE] sees it. *)
Definition ci_match (p h : pystr) : Prop :=
  Forall2 (fun a b => re_ieq a b = true) p h.

(** [s] begins with [p] in some letter case. *)
Definition ci_begins (p s : pystr) : Prop :=
  exists h t, s = h ++ t /\ ci_match p h.

(** A boundary of the weekday block begins at the start of [s]: one of the
    five weekday names or a trailing marker, in some letter case, or the end
    of the text (or the newline that ends it). *)
Definition boundary_here (s : pystr) : Prop :=
  (exists w, In w wd_order /\ ci_begins w s)
  \/ (exists w, In w trailing_markers /\ ci_begins w s)
  \/ s = [] \/ s = [LF].

End Vocabulary.

(** ** Example documents *)

Definition text_tag (name : string) (s : string) : node :=
  Tag name [NavigableString (u s)].

(** A page with three Tuesday headings: the first has nothing after it, the
    second is followed by running text, the third by a list. *)
Definition tuesday_siblings : list node :=
  [text_tag "p" "Pannbiff med lök"; text_tag "p" "• Vegetarisk lasagne";
   text_tag "h3" "Onsdag"; text_tag "p" "Fisksoppa"].

Definition tuesday_heading : element :=
  mkElement (text_tag "h3" "Tisdag") tuesday_siblings.

Definition salad_list : node :=
  Tag "ul" [text_tag "li" "Sallad"].

Definition fei_week_page : node :=
  document
    [Tag "div" [text_tag "h2" "TISDAG"];
     Tag "div" (text_tag "h3" "Tisdag" :: tuesday_siblings);
     Tag "div" [text_tag "strong" "tisdag"; salad_list]].

(** A heading followed by a line break, a blank string and a list of three
    dishes. *)
Definition dish_list : node :=
  Tag "ul"
    [text_tag "li" " Köttbullar "; NavigableString [LF];
     Tag "li" [text_tag "b" "Fisk"; NavigableString (u " med ris ")];
     text_tag "li" "Soppa"].

Definition fei_list_page : node :=
  document
    [Tag "div"
       [text_tag "h3" "Tisdag"; NavigableString [LF]; Tag "br" []; dish_list;
        text_tag "h3" "Onsdag"]].

(** A page where the weekday is announced in a paragraph and has its list
    further down. *)
Definition fei_two_headings : node :=
  document
    [Tag "div"
       [text_tag "h3" "Tisdag"; text_tag "p" "Pasta carbonara";
        text_tag "h3" "TISDAG";
        Tag "ul" [text_tag "li" "Sill"; text_tag "li" "Lax"; text_tag "li" "Torsk"]]].

(** A week menu in blocks. *)
Definition cirkeln_week_page : node :=
  document
    [Tag "div"
       [text_tag "h2" "Lunchmeny Vecka 42"; text_tag "p" "Måndag";
        text_tag "p" "Köttbullar"; text_tag "p" "Tisdag";
        text_tag "p" "Pasta med pesto"; text_tag "p" "Pris 115 kr";
        text_tag "p" "Onsdag"; text_tag "p" "Soppa"]].

(** The same kind of page with a line on the serving days before the
    menu. *)
Definition cirkeln_hours_page : node :=
  document
    [Tag "div"
       [text_tag "h2" "Lunchmeny Vecka 42";
        text_tag "p" "Serveras måndag till fredag";
        text_tag "p" "Måndag"; text_tag "p" "Köttbullar med potatismos";
        text_tag "p" "Tisdag"; text_tag "p" "Pasta"]].

(** A network where the first source fails. *)
Definition fetch_fei_down (url : pystr) : result node :=
  if pystr_eqb url (u "https://www.fei.se/meny-fei-restaurant-lounge")
  then Raise (u "404 Client Error: Not Found for url: https://www.fei.se/")
  else Ok cirkeln_week_page.

(** A week menu whose Tuesday block mentions the day again. *)
Definition cirkeln_extra_page : node :=
  document
    [Tag "div"
       [text_tag "h2" "Lunchmeny Vecka 42"; text_tag "p" "Tisdag";
        text_tag "p" "Pasta med pesto";
        text_tag "p" "Extra bara tisdag: soppa";
        text_tag "p" "Onsdag"; text_tag "p" "Fisk"]].

(** A week menu with nothing under Tuesday. *)
Definition cirkeln_closed_page : node :=
  document
    [Tag "div"
       [text_tag "h2" "Lunchmeny Vecka 42"; text_tag "p" "Tisdag";
        text_tag "p" "Onsdag"; text_tag "p" "Fisk med ris";
        text_tag "p" "Torsdag"; text_tag "p" "Soppa"]].

(** ** The block of Extractor B as the specification words it

    The text after the first occurrence of the capitalized weekday name, up
    to the first of: another of the five weekday names, a trailing marker,
    the end of the text.  [begins] tells what an occurrence is: [starts_with]
    for the names as they are written, or the test of [re.IGNORECASE]. *)
Section ClaimedBlock.

Variable begins : pystr -> pystr -> bool.

Fixpoint find_after (pat s : pystr) : option pystr :=
  if begins pat s then Some (skipn (length pat) s)
  else match s with
       | [] => None
       | _ :: r => find_after pat r
       end.

Definition claimed_boundary (day_name_cap s : pystr) : bool :=
  existsb (fun w => negb (pystr_eqb w day_name_cap) && begins w s) wd_order
  || existsb (fun w => begins w s) trailing_markers
  || is_empty s.

Fixpoint claimed_until (day_name_cap s : pystr) : pystr :=
  if claimed_boundary day_name_cap s then []
  else match s with
       | [] => []
       | c :: r => c :: claimed_until day_name_cap r
       end.

Definition claimed_block (day_name_cap full : pystr) : option pystr :=
  option_map (claimed_until day_name_cap) (find_after day_name_cap full).

End ClaimedBlock.

(** * Properties *)

(** ** Stripping and substitution *)

Lemma lstrip_by_split (p : char -> bool) (s : pystr) :
  exists a, s = a ++ lstrip_by p s /\ Forall (fun c => p c = true) a.
Proof.
  induction s as [|c r IH]; simpl.
  - exists []. split; [reflexivity | constructor].
  - destruct (p c) eqn:Hc.
    + destruct IH as [a [E F]]. exists (c :: a). split.
      * simpl. congruence.
      * constructor; assumption.
    + exists []. split; [reflexivity | constructor].
Qed.

Lemma lstrip_by_head (p : char -> bool) (s : pystr) c r :
  lstrip_by p s = c :: r -> p c = false.
Proof.
  induction s as [|d t IH]; simpl; [discriminate|].
  destruct (p d) eqn:Hd; [exact IH|].
  intros E. injection E as -> _. exact Hd.
Qed.

Lemma lstrip_by_length (p : char -> bool) (s : pystr) :
  (length (lstrip_by p s) <= length s)%nat.
Proof.
  induction s as [|c r IH]; simpl; [lia|].
  destruct (p c); simpl; lia.
Qed.

Lemma lstrip_by_id (p : char -> bool) (s : pystr) :
  match s with [] => True | c :: _ => p c = false end -> lstrip_by p s = s.
Proof.
  destruct s as [|c r]; simpl; [reflexivity|]. intros ->. reflexivity.
Qed.

Lemma lstrip_by_all (p : char -> bool) (a s : pystr) :
  Forall (fun c => p c = true) a -> lstrip_by p (a ++ s) = lstrip_by p s.
Proof.
  induction 1 as [|c a Hc _ IH]; simpl; [reflexivity|].
  rewrite Hc. exact IH.
Qed.

Lemma rstrip_by_split (p : char -> bool) (s : pystr) :
  exists b, s = rstrip_by p s ++ b /\ Forall (fun c => p c = true) b.
Proof.
  unfold rstrip_by.
  destruct (lstrip_by_split p (rev s)) as [a [E F]].
  exists (rev a). split.
  - rewrite <- rev_app_distr, <- E, rev_involutive. reflexivity.
  - apply Forall_rev. exact F.
Qed.

Lemma rstrip_by_last (p : char -> bool) (s : pystr) r c :
  rstrip_by p s = r ++ [c] -> p c = false.
Proof.
  unfold rstrip_by. intros E.
  apply (f_equal (@rev char)) in E.
  rewrite rev_involutive, rev_app_distr in E. simpl in E.
  eapply lstrip_by_head. exact E.
Qed.

Lemma strip_by_infix (p : char -> bool) (s : pystr) :
  exists a b, s = a ++ strip_by p s ++ b.
Proof.
  unfold strip_by.
  destruct (lstrip_by_split p s) as [a [Ea _]].
  destruct (rstrip_by_split p (lstrip_by p s)) as [b [Eb _]].
  exists a, b. rewrite <- Eb. exact Ea.
Qed.

Lemma strip_by_head (p : char -> bool) (s : pystr) c r :
  strip_by p s = c :: r -> p c = false.
Proof.
  unfold strip_by. intros E.
  destruct (rstrip_by_split p (lstrip_by p s)) as [b [Eb _]].
  rewrite E in Eb. simpl in Eb.
  eapply lstrip_by_head. exact Eb.
Qed.

Lemma strip_by_last (p : char -> bool) (s : pystr) r c :
  strip_by p s = r ++ [c] -> p c = false.
Proof. unfold strip_by. apply rstrip_by_last. Qed.

Lemma match_ws_plus_consuming : consuming match_ws_plus.
Proof.
  intros [|c r] rest; simpl; [discriminate|].
  destruct (is_space c); [|discriminate].
  intros E. injection E as <-.
  pose proof (lstrip_by_length is_space r). lia.
Qed.

Lemma match_sep_consuming sep : consuming (match_sep sep).
Proof.
  intros s rest. unfold match_sep.
  pose proof (lstrip_by_length is_space s) as L.
  destruct (lstrip_by is_space s) as [|c r]; [discriminate|].
  destruct (c =? sep); [|discriminate].
  intros E. injection E as <-.
  pose proof (lstrip_by_length is_space r). simpl in L. lia.
Qed.

(** The substitution does not run out of fuel: more fuel than the length of
    the subject changes nothing. *)
Lemma re_sub_loop_fuel m repl :
  consuming m ->
  forall fuel s, (length s <= fuel)%nat ->
  re_sub_loop m repl fuel s = re_sub m repl s.
Proof.
  intros Hm. unfold re_sub.
  assert (G : forall n f1 f2 s, (length s <= n)%nat -> (length s <= f1)%nat ->
              (length s <= f2)%nat ->
              re_sub_loop m repl f1 s = re_sub_loop m repl f2 s).
  { induction n as [|n IH]; intros f1 f2 s Hn H1 H2.
    - destruct s; [|simpl in Hn; lia]. destruct f1, f2; reflexivity.
    - destruct s as [|c r]; [destruct f1, f2; reflexivity|].
      simpl in *. destruct f1 as [|f1]; [lia|]. destruct f2 as [|f2]; [lia|].
      simpl. destruct (m (c :: r)) as [rest|] eqn:E.
      + apply Hm in E. simpl in E. f_equal. apply IH; lia.
      + f_equal. apply IH; lia. }
  intros fuel s H. apply (G (length s)); lia.
Qed.

Lemma re_sub_nil m repl : re_sub m repl [] = [].
Proof. reflexivity. Qed.

Lemma re_sub_cons m repl c r :
  consuming m ->
  re_sub m repl (c :: r) =
  match m (c :: r) with
  | Some rest => repl ++ re_sub m repl rest
  | None => c :: re_sub m repl r
  end.
Proof.
  intros Hm. unfold re_sub at 1. simpl.
  destruct (m (c :: r)) as [rest|] eqn:E.
  - apply Hm in E. simpl in E.
    rewrite re_sub_loop_fuel; [reflexivity | assumption | lia].
  - reflexivity.
Qed.

(** Induction on a string along the scan of [re_sub]. *)
Lemma scan_ind (m : pystr -> option pystr) (Hm : consuming m)
      (P : pystr -> Prop) :
  P [] ->
  (forall c r rest, m (c :: r) = Some rest -> P rest -> P (c :: r)) ->
  (forall c r, m (c :: r) = None -> P r -> P (c :: r)) ->
  forall s, P s.
Proof.
  intros H0 Hyes Hno s.
  remember (length s) as n eqn:Hn.
  assert (Hle : (length s <= n)%nat) by lia. clear Hn.
  revert s Hle. induction n as [|n IH]; intros s Hle.
  - destruct s; [exact H0 | simpl in Hle; lia].
  - destruct s as [|c r]; [exact H0|].
    destruct (m (c :: r)) as [rest|] eqn:E.
    + apply (Hyes _ _ _ E). apply IH.
      apply Hm in E. simpl in *. lia.
    + apply (Hno _ _ E). apply IH. simpl in Hle. lia.
Qed.

(** ** The Text Normalizer: claim C4 *)

Lemma ws_collapsedb_sound s : ws_collapsedb s = true -> ws_collapsed s.
Proof.
  induction s as [|x s IH]; intros H a c b E Hc.
  - destruct a; discriminate.
  - simpl in H. apply andb_prop in H as [H1 H2].
    destruct a as [|y a]; simpl in E; injection E as -> ->.
    + rewrite Hc in H1. apply andb_prop in H1 as [H1 H3].
      split; [apply N.eqb_eq; exact H1 | apply negb_true_iff; exact H3].
    + apply (IH H2 a c b eq_refl Hc).
Qed.

Lemma ws_collapsed_infix a t b : ws_collapsed (a ++ t ++ b) -> ws_collapsed t.
Proof.
  intros H a' c b' E Hc.
  destruct (H (a ++ a') c (b' ++ b)) as [H1 H2].
  - rewrite E. rewrite <- !app_assoc. reflexivity.
  - exact Hc.
  - split; [exact H1|]. destruct b'; [reflexivity | exact H2].
Qed.

Lemma sub_ws_head s :
  head_is_space (re_sub match_ws_plus [SPACE] s) = true -> head_is_space s = true.
Proof.
  destruct s as [|c r]; [discriminate|].
  rewrite re_sub_cons by exact match_ws_plus_consuming.
  simpl. destruct (is_space c) eqn:Hc; [reflexivity|]. simpl. congruence.
Qed.

Lemma sub_ws_collapsed s :
  ws_collapsedb (re_sub match_ws_plus [SPACE] s) = true.
Proof.
  induction s as [| c r rest E IH | c r E IH]
    using (scan_ind match_ws_plus match_ws_plus_consuming).
  - reflexivity.
  - rewrite re_sub_cons, E by exact match_ws_plus_consuming.
    simpl in E. destruct (is_space c); [|discriminate]. injection E as <-.
    simpl. rewrite IH, andb_true_r. apply negb_true_iff.
    destruct (head_is_space (re_sub match_ws_plus [SPACE] (lstrip_by is_space r)))
      eqn:Hh; [|reflexivity].
    apply sub_ws_head in Hh.
    destruct (lstrip_by is_space r) as [|d t] eqn:El; [discriminate|].
    apply lstrip_by_head in El. simpl in Hh. congruence.
  - rewrite re_sub_cons, E by exact match_ws_plus_consuming.
    simpl in E. destruct (is_space c) eqn:Hc; [discriminate|].
    simpl. rewrite Hc. exact IH.
Qed.

Lemma clean_line_collapsed ln : ws_collapsed (clean_line ln).
Proof.
  unfold clean_line, strip_chars.
  destruct (strip_by_infix (fun c => char_in c STRIP_CHARS)
              (re_sub match_ws_plus [SPACE] ln)) as [a [b E]].
  apply (ws_collapsed_infix a _ b). rewrite <- E.
  apply ws_collapsedb_sound, sub_ws_collapsed.
Qed.

Lemma clean_line_ends ln : clean_ends (clean_line ln).
Proof.
  unfold clean_line, strip_chars. split.
  - intros c r E. apply (strip_by_head _ _ _ _ E).
  - intros r c E. apply (strip_by_last _ _ _ _ E).
Qed.

Lemma sub_ws_collapsed_from raw :
  collapsed_from raw (re_sub match_ws_plus [SPACE] raw).
Proof.
  induction raw as [| c r rest E IH | c r E IH]
    using (scan_ind match_ws_plus match_ws_plus_consuming).
  - constructor.
  - rewrite re_sub_cons, E by exact match_ws_plus_consuming.
    simpl in E. destruct (is_space c) eqn:Hc; [|discriminate].
    injection E as <-.
    destruct (lstrip_by_split is_space r) as [ws [Er F]].
    rewrite Er at 1.
    change (c :: ws ++ lstrip_by is_space r)
      with ((c :: ws) ++ lstrip_by is_space r).
    apply collapsed_run; [discriminate | constructor; assumption | | exact IH].
    destruct (lstrip_by is_space r) as [|d t] eqn:El; [reflexivity|].
    apply lstrip_by_head in El. exact El.
  - rewrite re_sub_cons, E by exact match_ws_plus_consuming.
    simpl in E. destruct (is_space c) eqn:Hc; [discriminate|].
    apply collapsed_char; assumption.
Qed.

Lemma strip_chars_stripped_from s :
  stripped_from s (strip_chars STRIP_CHARS s).
Proof.
  unfold stripped_from, strip_chars, strip_by.
  destruct (lstrip_by_split (fun c => char_in c STRIP_CHARS) s) as [a [Ea Fa]].
  destruct (rstrip_by_split (fun c => char_in c STRIP_CHARS)
              (lstrip_by (fun c => char_in c STRIP_CHARS) s)) as [b [Eb Fb]].
  exists a, b. split; [rewrite <- Eb; exact Ea|].
  split; [exact Fa|]. split; [exact Fb|]. split.
  - intros c r E.
    apply (strip_by_head (fun c => char_in c STRIP_CHARS) s c r). exact E.
  - intros r c E.
    apply (strip_by_last (fun c => char_in c STRIP_CHARS) s r c). exact E.
Qed.

Lemma clean_line_normalized_from raw : normalized_from raw (clean_line raw).
Proof.
  exists (re_sub match_ws_plus [SPACE] raw). split.
  - apply sub_ws_collapsed_from.
  - apply strip_chars_stripped_from.
Qed.

Lemma is_linebreak_cr c : (c =? CR) = true -> is_linebreak c = true.
Proof. intros H. apply N.eqb_eq in H. subst. reflexivity. Qed.

Lemma splitlines_from_physical cur s :
  no_break cur -> physical_lines (cur ++ s) (splitlines_from cur s).
Proof.
  remember (length s) as n eqn:Hn.
  assert (Hle : (length s <= n)%nat) by lia. clear Hn.
  revert cur s Hle.
  assert (Hend : forall cur, no_break cur ->
            physical_lines (cur ++ []) (splitlines_from cur [])).
  { intros cur Hcur. rewrite app_nil_r. simpl.
    destruct cur; [constructor|].
    apply lines_last; [discriminate | exact Hcur]. }
  induction n as [|n IH]; intros cur s Hle Hcur.
  - destruct s; [apply Hend; exact Hcur | simpl in Hle; lia].
  - destruct s as [|x s]; [apply Hend; exact Hcur|]. simpl in Hle.
    assert (Hone : is_linebreak x = true ->
              (x = CR -> forall rest', s <> LF :: rest') ->
              physical_lines (cur ++ x :: s) (cur :: splitlines_from [] s)).
    { intros Hx Hcr.
      apply (lines_break cur [x] s); [exact Hcur | | |].
      - right. exists x. split; [reflexivity | exact Hx].
      - intros E. injection E as ->. apply Hcr. reflexivity.
      - apply (IH [] s); [lia | constructor]. }
    cbn [splitlines_from]. destruct (x =? CR) eqn:Hcr.
    + pose proof (is_linebreak_cr x Hcr) as Hx.
      destruct s as [|d s'].
      * apply Hone; [exact Hx | intros _ rest' E; discriminate].
      * destruct (d =? LF) eqn:Hd.
        -- apply N.eqb_eq in Hcr, Hd. subst x d.
           apply (lines_break cur [CR; LF] s'); [exact Hcur | | |].
           ++ left. reflexivity.
           ++ intros E. discriminate.
           ++ apply (IH [] s'); [simpl in Hle; lia | constructor].
        -- apply Hone; [exact Hx|]. intros _ rest' E. injection E as -> _.
           rewrite N.eqb_refl in Hd. discriminate.
    + destruct (is_linebreak x) eqn:Hx.
      * apply Hone; [reflexivity|]. intros ->. discriminate.
      * assert (H : physical_lines ((cur ++ [x]) ++ s)
                      (splitlines_from (cur ++ [x]) s)).
        { apply IH; [lia|]. apply Forall_app. split; [exact Hcur|].
          constructor; [exact Hx | constructor]. }
        rewrite <- app_assoc in H. exact H.
Qed.

(** C4.  Every line that [clean_lines] returns is non-empty, has its runs of
    whitespace collapsed to single spaces and neither begins nor ends with a
    decorative character (space, bullet, asterisk, hyphen, en dash, em dash,
    period).  The result is made from the physical lines of the text, in
    their order: each physical line with every run of whitespace replaced by
    one space and the decorative characters at its two ends removed, and the
    lines that are empty after that dropped. *)
Theorem clean_lines_normalized (text : pystr) :
  Forall (fun ln => ln <> [] /\ ws_collapsed ln /\ clean_ends ln)
         (clean_lines text)
  /\ exists raw cleaned,
       physical_lines text raw
       /\ Forall2 normalized_from raw cleaned
       /\ kept_from (fun ln => ln <> []) cleaned (clean_lines text).
Proof.
  unfold clean_lines. split.
  - apply Forall_forall. intros ln Hin.
    apply filter_In in Hin as [Hin Hne].
    apply in_map_iff in Hin as [raw [<- _]].
    split; [|split].
    + intros E. rewrite E in Hne. discriminate.
    + apply clean_line_collapsed.
    + apply clean_line_ends.
  - exists (splitlines text), (map clean_line (splitlines text)).
    split; [|split].
    + apply (splitlines_from_physical [] text). constructor.
    + induction (splitlines text) as [|raw l IH]; simpl; constructor.
      * apply clean_line_normalized_from.
      * exact IH.
    + induction (map clean_line (splitlines text)) as [|x l IH]; simpl.
      * constructor.
      * destruct x as [|c x]; simpl.
        -- apply kept_drop; [congruence | exact IH].
        -- apply kept_take; [discriminate | exact IH].
Qed.

(** ** Extractor A: claims C1, C5 and C6 *)

Lemma next_tag_sibling_tags (l : list node) :
  match sibling_tags l with
  | [] => next_tag l = None
  | e :: rest => next_tag l = Some e /\ following e = rest
  end.
Proof.
  induction l as [|n r IH]; simpl; [reflexivity|].
  destruct n; simpl; try exact IH. split; reflexivity.
Qed.

Lemma find_next_sibling_following (e : element) :
  match following e with
  | [] => find_next_sibling e = None
  | e' :: rest => find_next_sibling e = Some e' /\ following e' = rest
  end.
Proof. apply next_tag_sibling_tags. Qed.

Section ExtractorA.

Context {U : Unicode}.

Lemma starts_with_refl a : starts_with a a = true.
Proof.
  induction a as [|c a IH]; simpl; [reflexivity|].
  rewrite N.eqb_refl. exact IH.
Qed.

Lemma pystr_eqb_eq a b : pystr_eqb a b = true <-> a = b.
Proof.
  unfold pystr_eqb. split.
  - intros H. apply andb_prop in H as [Hl Hs]. apply Nat.eqb_eq in Hl.
    revert b Hl Hs. induction a as [|c a IH]; intros [|d b] Hl Hs;
      simpl in *; try discriminate; [reflexivity|].
    apply andb_prop in Hs as [Hc Hs]. apply N.eqb_eq in Hc. subst d.
    f_equal. apply IH; [lia | exact Hs].
  - intros <-. rewrite Nat.eqb_refl. simpl. apply starts_with_refl.
Qed.

Lemma str_in_In s l : str_in s l = true <-> In s l.
Proof.
  unfold str_in. rewrite existsb_exists. split.
  - intros [x [Hin E]]. apply pystr_eqb_eq in E. subst. exact Hin.
  - intros Hin. exists s. split; [exact Hin | apply pystr_eqb_eq; reflexivity].
Qed.

Lemma truthy_true {A} (l : list A) : truthy l = true <-> l <> [].
Proof.
  destruct l; simpl; split; intros H;
    try discriminate; try reflexivity; elim H; reflexivity.
Qed.

Lemma truthy_false {A} (l : list A) : truthy l = false <-> l = [].
Proof. destruct l; simpl; split; intros H; try discriminate; reflexivity. Qed.

Lemma is_stop_true t : is_stop t = true <-> boundary_text t.
Proof.
  unfold is_stop, boundary_text.
  rewrite andb_true_iff, truthy_true, str_in_In. reflexivity.
Qed.

Lemma is_stop_false t : is_stop t = false <-> ~ boundary_text t.
Proof.
  rewrite <- is_stop_true. destruct (is_stop t); split; congruence.
Qed.

(** The loop over the candidates returns what the first candidate with
    items appends. *)
Lemma fei_loop_first pre c post :
  Forall (fun t => fei_candidate_items t = []) pre ->
  fei_candidate_items c <> [] ->
  fei_loop (pre ++ c :: post) [] = fei_candidate_items c.
Proof.
  intros Hpre Hc. induction Hpre as [|t pre Ht _ IH]; simpl.
  - destruct (fei_candidate_items c); [congruence | reflexivity].
  - rewrite Ht. simpl. exact IH.
Qed.

Lemma fei_loop_none cands :
  Forall (fun t => fei_candidate_items t = []) cands ->
  fei_loop cands [] = [].
Proof.
  induction 1 as [|t l Ht _ IH]; simpl; [reflexivity|].
  rewrite Ht. simpl. exact IH.
Qed.

(** C1.  [parse_fei] returns the items of the first candidate (an [h2],
    [h3], [h4], [strong] or [p] element, in document order, whose text is the
    weekday label once upper-cased) that yields items: the candidates after
    it contribute nothing; when no candidate yields items the result is
    empty. *)
Theorem parse_fei_first_yielding (soup : node) (weekday_upper : pystr) :
  (forall pre c post,
      fei_candidates soup weekday_upper = pre ++ c :: post ->
      Forall (fun t => fei_candidate_items t = []) pre ->
      fei_candidate_items c <> [] ->
      parse_fei soup weekday_upper = fei_candidate_items c)
  /\ (Forall (fun t => fei_candidate_items t = [])
             (fei_candidates soup weekday_upper) ->
      parse_fei soup weekday_upper = []).
Proof.
  unfold parse_fei. split.
  - intros pre c post -> Hpre Hc. apply fei_loop_first; assumption.
  - apply fei_loop_none.
Qed.

(** Induction on a node with the hypothesis for the children. *)
Lemma node_nested_ind (P : node -> Prop) :
  (forall name children, Forall P children -> P (Tag name children)) ->
  (forall s, P (NavigableString s)) ->
  (forall s, P (Comment s)) ->
  forall n, P n.
Proof.
  intros Ht Hs Hc. fix IH 1. intros [name children | s | s].
  - apply Ht. induction children as [|c r IHr]; constructor.
    + apply IH.
    + exact IHr.
  - apply Hs.
  - apply Hc.
Qed.

Lemma descendants_strings (n : node) (d : element) :
  In d (descendants n) -> incl (all_strings (el_node d)) (all_strings n).
Proof.
  revert d. induction n as [name children IH | s | s] using node_nested_ind;
    intros d Hd; simpl in Hd; try contradiction.
  simpl. induction children as [|c r IHr]; [contradiction|].
  inversion IH as [|? ? Hc Hr]; subst.
  simpl. destruct Hd as [Hd | Hd].
  - subst d. simpl. apply incl_appl, incl_refl.
  - apply in_app_or in Hd as [Hd | Hd].
    + apply incl_appl. apply Hc. exact Hd.
    + apply incl_appr. apply IHr; assumption.
Qed.

Lemma join_nonempty sep (parts : list pystr) :
  Forall (fun p => p <> []) parts -> parts <> [] -> join sep parts <> [].
Proof.
  intros F Hne. destruct parts as [|p rest]; [congruence|].
  inversion F as [|? ? Hp _]; subst.
  simpl. destruct rest; [exact Hp|].
  destruct p; [congruence | discriminate].
Qed.

(** Whether [get_text] is empty does not depend on the separator: it is
    not when some string of the element is not blank. *)
Lemma get_text_nonempty sep (e : element) :
  get_text sep e <> [] <->
  exists s, In s (all_strings (el_node e)) /\ strip_ws s <> [].
Proof.
  unfold get_text. split.
  - intros H.
    destruct (filter truthy (map strip_ws (all_strings (el_node e))))
      as [|t ts] eqn:E; [elim H; reflexivity|].
    assert (Hin : In t (filter truthy (map strip_ws (all_strings (el_node e)))))
      by (rewrite E; left; reflexivity).
    apply filter_In in Hin as [Hin Ht]. apply in_map_iff in Hin as [s [<- Hs]].
    exists s. split; [exact Hs | apply truthy_true; exact Ht].
  - intros [s [Hs Hne]]. apply join_nonempty.
    + apply Forall_forall. intros t Ht. apply filter_In in Ht as [_ Ht].
      apply truthy_true. exact Ht.
    + intros E.
      assert (Hin : In (strip_ws s)
                       (filter truthy (map strip_ws (all_strings (el_node e))))).
      { apply filter_In.
        split; [apply in_map; exact Hs | apply truthy_true; exact Hne]. }
      rewrite E in Hin. contradiction.
Qed.

(** The skipping loop, read on the chain of following elements. *)
Lemma skip_blank_chain n l blanks content rest :
  sibling_tags l = blanks ++ content :: rest ->
  Forall (fun e => is_blank e = true) blanks ->
  (length blanks <= n)%nat ->
  is_blank content = false \/ length blanks = n ->
  skip_blank n (next_tag l) = Some content.
Proof.
  revert n l. induction blanks as [|b blanks IH]; intros n l E F Hn Hc;
    pose proof (next_tag_sibling_tags l) as Hl; rewrite E in Hl; simpl in Hl;
    destruct Hl as [-> Hf].
  - destruct n; [reflexivity|]. cbn [skip_blank].
    destruct Hc as [Hc | Hc]; [rewrite Hc; reflexivity | discriminate].
  - inversion F as [|? ? Hb Hbs]; subst. simpl in Hn.
    destruct n as [|n]; [lia|]. cbn [skip_blank]. rewrite Hb.
    apply (IH n (el_after b)); [exact Hf | exact Hbs | lia |].
    destruct Hc as [Hc | Hc]; [left; exact Hc | right; simpl in Hc; lia].
Qed.

(** The walk over the running text, read on the chain. *)
Lemma walk_block_boundary n (w : element) pre b post :
  w :: following w = pre ++ b :: post ->
  Forall (fun e => ~ boundary_text (get_text [SPACE] e)) pre ->
  boundary_text (get_text [SPACE] b) ->
  walk_block n (Some w) =
  filter truthy (map (get_text [SPACE]) (firstn n pre)).
Proof.
  revert w pre. induction n as [|n IH]; intros w pre E F Hb; [reflexivity|].
  cbn [walk_block firstn map].
  destruct pre as [|p pre]; simpl in E; injection E as -> Ef.
  - apply is_stop_true in Hb. rewrite Hb. reflexivity.
  - inversion F as [|? ? Hp Hpre]; subst.
    apply is_stop_false in Hp. rewrite Hp. cbn [firstn map filter].
    pose proof (find_next_sibling_following p) as Hn. rewrite Ef in Hn.
    replace (walk_block n (find_next_sibling p))
      with (filter truthy (map (get_text [SPACE]) (firstn n pre))).
    + destruct (truthy (get_text [SPACE] p)); reflexivity.
    + destruct pre as [|q pre]; simpl in Hn.
      * destruct Hn as [Hn Hq]. rewrite Hn. symmetry.
        apply (IH b []); [simpl; congruence | constructor | exact Hb].
      * destruct Hn as [Hn Hq]. rewrite Hn. symmetry.
        apply (IH q (q :: pre)); [simpl; congruence | exact Hpre | exact Hb].
Qed.

(** C5, amended.  When the first candidate (an [h2], [h3], [h4], [strong] or
    [p] element whose text is the weekday label) that is not preceded by a
    candidate yielding items is followed, after at most 6 blank or [br]
    siblings, by a [ul] with at least one entry that has text, [parse_fei]
    returns exactly the texts of the [li] entries of that list that are not
    empty, in document order. *)
Theorem parse_fei_list_container
  (soup : node) (weekday_upper : pystr)
  (pre post : list element) (c : element)
  (blanks rest : list element) (ul : element) :
  fei_candidates soup weekday_upper = pre ++ c :: post ->
  Forall (fun t => fei_candidate_items t = []) pre ->
  following c = blanks ++ ul :: rest ->
  Forall (fun e => is_blank e = true) blanks ->
  (length blanks <= 6)%nat ->
  name_in ["ul"%string] ul = true ->
  (exists li, In li (find_all ["li"%string] (el_node ul))
              /\ get_text [SPACE] li <> []) ->
  parse_fei soup weekday_upper =
  filter truthy (map (get_text [SPACE]) (find_all ["li"%string] (el_node ul))).
Proof.
  intros Hc Hpre Hf Hbl Hlen Hul [li [Hli Hne]].
  assert (Hitems : list_items ul <> []).
  { unfold list_items. intros E.
    assert (Hin : In (get_text [SPACE] li)
                    (filter truthy (map (get_text [SPACE])
                                        (find_all ["li"%string] (el_node ul))))).
    { apply filter_In.
      split; [apply in_map; exact Hli | apply truthy_true; exact Hne]. }
    rewrite E in Hin. contradiction. }
  assert (Hnb : is_blank ul = false).
  { unfold is_blank. unfold name_in in Hul.
    destruct (el_name ul) as [nm|]; [|discriminate].
    simpl in Hul. rewrite orb_false_r in Hul.
    apply String.eqb_eq in Hul. subst nm.
    simpl. apply negb_false_iff, truthy_true, get_text_nonempty.
    apply get_text_nonempty in Hne as [s [Hs Hs']].
    exists s. split; [|exact Hs'].
    unfold find_all in Hli. apply filter_In in Hli as [Hli _].
    apply (descendants_strings _ _ Hli). exact Hs. }
  assert (Hyield : fei_candidate_items c = list_items ul).
  { unfold fei_candidate_items, find_next_sibling.
    rewrite (skip_blank_chain 6 (el_after c) blanks ul rest Hf Hbl Hlen
               (or_introl Hnb)).
    rewrite Hul. reflexivity. }
  unfold parse_fei. rewrite Hc, fei_loop_first; [exact Hyield | exact Hpre |].
  rewrite Hyield. exact Hitems.
Qed.

(** C6.  In the running-text branch, when the chain that starts at the
    content sibling reaches a sibling whose text, upper-cased, is a weekday
    label or one of the two section phrases, the items come from the siblings
    before it, at most 12 of them: the text of the boundary sibling and of
    the siblings after it is not part of the block. *)
Theorem parse_fei_stops_at_boundary
  (tag next_el : element) (pre post : list element) (b : element) :
  skip_blank 6 (find_next_sibling tag) = Some next_el ->
  name_in ["ul"%string] next_el = false ->
  next_el :: following next_el = pre ++ b :: post ->
  Forall (fun e => ~ boundary_text (get_text [SPACE] e)) pre ->
  boundary_text (get_text [SPACE] b) ->
  fei_candidate_items tag =
  filter longer_than_3
    (clean_lines
       (join [LF] (filter truthy (map (get_text [SPACE]) (firstn 12 pre))))).
Proof.
  intros Hskip Hul Hchain Hpre Hb.
  unfold fei_candidate_items. rewrite Hskip, Hul.
  rewrite (walk_block_boundary 12 next_el pre b post Hchain Hpre Hb).
  reflexivity.
Qed.

End ExtractorA.

(** ** Extractor B: claims C2 and C7 *)

Section ExtractorB.

Context {U : Unicode}.

Lemma ci_prefix_spec p s t :
  ci_prefix p s = Some t <-> exists h, s = h ++ t /\ ci_match p h.
Proof.
  revert s. induction p as [|a p IH]; intros s; simpl.
  - split.
    + intros E. injection E as <-. exists []. split; [reflexivity | constructor].
    + intros [h [-> M]]. inversion M. reflexivity.
  - destruct s as [|b s].
    + split; [discriminate|]. intros [h [E M]]. inversion M; subst. discriminate.
    + destruct (re_ieq a b) eqn:Hab.
      * rewrite IH. split.
        -- intros [h [-> M]]. exists (b :: h). split; [reflexivity|].
           constructor; assumption.
        -- intros [h [E M]]. inversion M as [|? b' ? h' Hb M']; subst.
           injection E as <- ->. exists h'. split; [reflexivity | exact M'].
      * split; [discriminate|].
        intros [h [E M]]. inversion M as [|? b' ? h' Hb M']; subst.
        injection E as <- _. congruence.
Qed.

Lemma ci_starts_spec p s : ci_starts p s = true <-> ci_begins p s.
Proof.
  unfold ci_starts, ci_begins.
  destruct (ci_prefix p s) as [t|] eqn:E.
  - apply ci_prefix_spec in E as [h [E M]]. split; [|reflexivity].
    intros _. exists h, t. split; assumption.
  - split; [discriminate|]. intros [h [t [Es M]]].
    assert (E' : ci_prefix p s = Some t)
      by (apply ci_prefix_spec; exists h; split; assumption).
    congruence.
Qed.

Lemma existsb_ci_starts (l : list pystr) s :
  existsb (fun w => ci_starts w s) l = true <->
  exists w, In w l /\ ci_begins w s.
Proof.
  rewrite existsb_exists. split; intros [w [Hin H]]; exists w;
    (split; [exact Hin | apply ci_starts_spec; exact H]).
Qed.

Lemma at_end_spec s : at_end s = true <-> s = [] \/ s = [LF].
Proof.
  destruct s as [|c [|d r]]; simpl.
  - split; [left; reflexivity | reflexivity].
  - rewrite N.eqb_eq. split.
    + intros ->. right. reflexivity.
    + intros [E | E]; [discriminate | injection E as ->; reflexivity].
  - split; [discriminate | intros [E | E]; discriminate].
Qed.

Lemma at_boundary_spec s : at_boundary s = true <-> boundary_here s.
Proof.
  unfold at_boundary, boundary_here.
  rewrite !orb_true_iff, !existsb_ci_starts, at_end_spec. tauto.
Qed.

Lemma lazy_until_eq s :
  lazy_until s =
  if at_boundary s then []
  else match s with
       | [] => []
       | c :: r => c :: lazy_until r
       end.
Proof. destruct s; reflexivity. Qed.

Lemma lazy_until_block blk post :
  (forall a b, blk = a ++ b -> b <> [] -> ~ boundary_here (b ++ post)) ->
  boundary_here post ->
  lazy_until (blk ++ post) = blk.
Proof.
  intros Hin Hpost. induction blk as [|c blk IH].
  - simpl. apply at_boundary_spec in Hpost.
    rewrite lazy_until_eq, Hpost. reflexivity.
  - assert (Hc : at_boundary ((c :: blk) ++ post) = false).
    { destruct (at_boundary ((c :: blk) ++ post)) eqn:E; [|reflexivity].
      apply at_boundary_spec in E.
      elim (Hin [] (c :: blk) eq_refl); [discriminate | exact E]. }
    rewrite lazy_until_eq, Hc. simpl. f_equal. apply IH.
    intros a b -> Hb. apply (Hin (c :: a) b eq_refl Hb).
Qed.

Lemma skip_ws_capture_run ws s block :
  Forall (fun c => is_space c = true) ws ->
  skip_ws_capture s = Some block ->
  skip_ws_capture (ws ++ s) = Some block.
Proof.
  induction 1 as [|c ws Hc _ IH]; intros Hs; simpl; [exact Hs|].
  rewrite Hc, (IH Hs). reflexivity.
Qed.

Lemma search_day_first day pre s block :
  (forall a b, pre ++ s = a ++ b -> (length a < length pre)%nat ->
               ~ ci_begins day b) ->
  match_day_at day s = Some block ->
  search_day day (pre ++ s) = Some block.
Proof.
  induction pre as [|c pre IH]; intros Hfirst Hs.
  - destruct s; simpl in *; rewrite Hs; reflexivity.
  - assert (Hno : match_day_at day ((c :: pre) ++ s) = None).
    { unfold match_day_at.
      destruct (ci_prefix day ((c :: pre) ++ s)) as [t|] eqn:E; [|reflexivity].
      apply ci_prefix_spec in E as [h [E M]].
      elim (Hfirst [] ((c :: pre) ++ s) eq_refl); [simpl; lia|].
      exists h, t. split; assumption. }
    simpl in *. rewrite Hno. apply IH; [|exact Hs].
    intros a b E Hlen.
    apply (Hfirst (c :: a) b); [simpl; congruence | simpl; lia].
Qed.

(** C2, amended.  [parse_cirkeln] looks for the weekday name in any letter
    case: at its first such occurrence in the combined text, it skips the
    whitespace that follows the name and captures the block from there up to,
    and not including, the first place where a boundary begins (one of the
    five weekday names, the target's own included, or a trailing marker, in
    any letter case, or the end of the text), line breaks included; the
    result is made of the lines of that block.  The statement is for a
    block that does not itself begin at a boundary. *)
Theorem parse_cirkeln_block
  (soup : node) (weekday_upper : pystr) (pre name ws blk post : pystr) :
  In weekday_upper WEEKDAYS_FULL ->
  combined_text soup = pre ++ name ++ ws ++ blk ++ post ->
  ci_match (str_capitalize weekday_upper) name ->
  (forall a b, combined_text soup = a ++ b -> (length a < length pre)%nat ->
               ~ ci_begins (str_capitalize weekday_upper) b) ->
  Forall (fun c => is_space c = true) ws ->
  blk <> [] ->
  head_is_space blk = false ->
  (forall a b, blk = a ++ b -> b <> [] -> ~ boundary_here (b ++ post)) ->
  boundary_here post ->
  search_day (str_capitalize weekday_upper) (combined_text soup) = Some blk
  /\ parse_cirkeln soup weekday_upper = filter keep_line (clean_lines blk).
Proof.
  intros _ Hfull Hname Hfirst Hws Hne Hhead Hin Hpost.
  assert (Hsearch : search_day (str_capitalize weekday_upper) (combined_text soup)
                    = Some blk).
  { rewrite Hfull in *. apply search_day_first; [exact Hfirst|].
    unfold match_day_at.
    assert (E : ci_prefix (str_capitalize weekday_upper)
                  (name ++ ws ++ blk ++ post) = Some (ws ++ blk ++ post))
      by (apply ci_prefix_spec; exists name; split; [reflexivity | exact Hname]).
    rewrite E. apply skip_ws_capture_run; [exact Hws|].
    destruct blk as [|c blk]; [congruence|]. simpl in Hhead.
    simpl. rewrite Hhead. f_equal. f_equal. apply lazy_until_block.
    - intros a b -> Hb. apply (Hin (c :: a) b eq_refl Hb).
    - exact Hpost. }
  split; [exact Hsearch|].
  unfold parse_cirkeln. rewrite Hsearch. reflexivity.
Qed.

(** C7.  Every line that [parse_cirkeln] returns is longer than 3
    characters and begins, in no letter case, with [Pris], [11:], [Dagens] or
    [Veckans]. *)
Theorem parse_cirkeln_filtered (soup : node) (weekday_upper : pystr) :
  Forall (fun ln =>
            (3 < length ln)%nat
            /\ ~ ci_begins (u "Pris") ln /\ ~ ci_begins (u "11:") ln
            /\ ~ ci_begins (u "Dagens") ln /\ ~ ci_begins (u "Veckans") ln)
         (parse_cirkeln soup weekday_upper).
Proof.
  unfold parse_cirkeln.
  destruct (search_day (str_capitalize weekday_upper) (combined_text soup))
    as [block|]; [|constructor].
  apply Forall_forall. intros ln Hin. apply filter_In in Hin as [_ Hk].
  unfold keep_line in Hk. apply andb_prop in Hk as [Hlen Hb].
  apply Nat.ltb_lt in Hlen. split; [exact Hlen|].
  apply negb_true_iff in Hb. unfold is_boilerplate in Hb.
  assert (Hno : forall p, In p boilerplate_prefixes -> ~ ci_begins p ln).
  { intros p Hp Hbeg.
    assert (E : existsb (fun p => ci_starts p ln) boilerplate_prefixes = true)
      by (apply existsb_ci_starts; exists p; split; assumption).
    congruence. }
  repeat split; apply Hno; vm_compute; tauto.
Qed.

End ExtractorB.

(** ** The Menu Assembler: claim C3 *)

Section AssemblerProperties.

Context {U : Unicode}.

Lemma main_loop_map get sources day_menus :
  main_loop get sources day_menus = day_menus ++ map (entry_for get) sources.
Proof.
  revert day_menus. induction sources as [|[key url] rest IH]; intros acc; simpl.
  - rewrite app_nil_r. reflexivity.
  - unfold entry_for at 1. simpl.
    destruct (get key url); rewrite IH, <- app_assoc; reflexivity.
Qed.

Lemma assemble_nth get i :
  nth_error (assemble get) i =
  option_map (entry_for get) (nth_error SOURCE_URLS i).
Proof.
  unfold assemble. rewrite main_loop_map, app_nil_l. apply nth_error_map.
Qed.

(** C3.  For a call [get] that returns menus under the key it is given
    (as [get_menu_for] does) or raises, the assembled list has one entry per
    registered source, in the order of the registry; the entry of a source
    whose call raises [e] is a menu with the one item
    [(fel vid hämtning: e)]; the entry of a source depends on the call for
    that source only, so that a failure elsewhere leaves it as it is. *)
Theorem assemble_one_entry_per_source (get : pystr -> pystr -> result DayMenu) :
  (forall key url dm, get key url = Ok dm -> restaurant_key dm = key) ->
  map restaurant_key (assemble get) = map fst SOURCE_URLS
  /\ forall i key url,
       nth_error SOURCE_URLS i = Some (key, url) ->
       (forall e, get key url = Raise e ->
          nth_error (assemble get) i =
          Some (mkDayMenu key [u "(fel vid hämtning: " ++ e ++ u ")"]))
       /\ (forall dm, get key url = Ok dm ->
             nth_error (assemble get) i = Some dm)
       /\ (forall get', get' key url = get key url ->
             nth_error (assemble get') i = nth_error (assemble get) i).
Proof.
  intros Hkey. split.
  - unfold assemble. rewrite main_loop_map, app_nil_l.
    rewrite map_map. apply map_ext_in. intros [key url] _.
    unfold entry_for. simpl. destruct (get key url) as [dm|e] eqn:E.
    + apply (Hkey _ _ _ E).
    + reflexivity.
  - intros i key url Hi. repeat split.
    + intros e He. rewrite assemble_nth, Hi. simpl. unfold entry_for. simpl.
      rewrite He. reflexivity.
    + intros dm Hd. rewrite assemble_nth, Hi. simpl. unfold entry_for. simpl.
      rewrite Hd. reflexivity.
    + intros get' Hg. rewrite !assemble_nth, Hi. simpl. unfold entry_for. simpl.
      rewrite Hg. reflexivity.
Qed.

Lemma get_menu_for_key fetch weekday_upper key url dm :
  get_menu_for fetch key url weekday_upper = Ok dm -> restaurant_key dm = key.
Proof.
  unfold get_menu_for. destruct (fetch url); [|discriminate].
  intros E. injection E as <-. reflexivity.
Qed.

End AssemblerProperties.

(** ** The separators of [force_linebreaks] *)

(** A string is a run of whitespace, followed by nothing or by a character
    that is not whitespace and a rest. *)
Lemma ws_run_ind (P : pystr -> Prop) :
  (forall ws, all_space ws -> P ws) ->
  (forall ws y r, all_space ws -> is_space y = false ->
                  P r -> P (lstrip_by is_space r) -> P (ws ++ y :: r)) ->
  forall s : list char, P s.
Proof.
  intros Hend Hstep s.
  remember (length s) as n eqn:Hn.
  assert (Hle : (length s <= n)%nat) by lia. clear Hn.
  revert s Hle. induction n as [|n IH]; intros s Hle.
  - destruct s; [|simpl in Hle; lia]. apply Hend. constructor.
  - destruct (lstrip_by_split is_space s) as [ws [E F]].
    destruct (lstrip_by is_space s) as [|y r] eqn:El.
    + rewrite E, app_nil_r. apply Hend. exact F.
    + rewrite E. apply lstrip_by_head in El.
      assert (Hr : (length r < length s)%nat).
      { rewrite E, length_app. simpl. lia. }
      pose proof (lstrip_by_length is_space r).
      apply Hstep; try assumption; apply IH; lia.
Qed.

Lemma lstrip_all_space ws : all_space ws -> lstrip_by is_space ws = [].
Proof.
  intros F. rewrite <- (app_nil_r ws).
  rewrite lstrip_by_all; [reflexivity | exact F].
Qed.

Lemma lstrip_run ws y r :
  all_space ws -> is_space y = false ->
  lstrip_by is_space (ws ++ y :: r) = y :: r.
Proof.
  intros F Hy. rewrite lstrip_by_all by exact F. simpl. rewrite Hy. reflexivity.
Qed.

Section OneSeparator.

Variable sep : char.
Hypothesis sep_not_space : is_space sep = false.

Lemma sub_ws_end ws : all_space ws -> re_sub (match_sep sep) BR ws = ws.
Proof.
  induction 1 as [|w ws Hw F IH]; [reflexivity|].
  rewrite re_sub_cons by apply match_sep_consuming.
  assert (E : match_sep sep (w :: ws) = None).
  { unfold match_sep.
    rewrite (lstrip_all_space (w :: ws)) by (constructor; assumption).
    reflexivity. }
  rewrite E, IH. reflexivity.
Qed.

Lemma sub_sep ws r :
  all_space ws ->
  re_sub (match_sep sep) BR (ws ++ sep :: r) =
  BR ++ re_sub (match_sep sep) BR (lstrip_by is_space r).
Proof.
  intros F.
  assert (E : match_sep sep (ws ++ sep :: r) = Some (lstrip_by is_space r)).
  { unfold match_sep. rewrite lstrip_run by assumption.
    rewrite N.eqb_refl. reflexivity. }
  destruct ws as [|w ws]; cbn [app] in *;
    rewrite re_sub_cons by apply match_sep_consuming; rewrite E; reflexivity.
Qed.

Lemma sub_ord ws y r :
  all_space ws -> is_space y = false -> y <> sep ->
  re_sub (match_sep sep) BR (ws ++ y :: r) =
  ws ++ y :: re_sub (match_sep sep) BR r.
Proof.
  intros F Hy Hne.
  assert (E : forall ws', all_space ws' -> match_sep sep (ws' ++ y :: r) = None).
  { intros ws' F'. unfold match_sep. rewrite lstrip_run by assumption.
    apply N.eqb_neq in Hne. rewrite Hne. reflexivity. }
  induction F as [|w ws Hw F IH]; cbn [app].
  - rewrite re_sub_cons by apply match_sep_consuming.
    pose proof (E [] (Forall_nil _)) as E0. cbn [app] in E0.
    rewrite E0. reflexivity.
  - rewrite re_sub_cons by apply match_sep_consuming.
    pose proof (E (w :: ws) (Forall_cons _ Hw F)) as E1. cbn [app] in E1.
    rewrite E1, IH. reflexivity.
Qed.

Lemma sub_sep_here r :
  re_sub (match_sep sep) BR (sep :: r) =
  BR ++ re_sub (match_sep sep) BR (lstrip_by is_space r).
Proof. apply (sub_sep [] r). constructor. Qed.

Lemma sub_ord_here y r :
  is_space y = false -> y <> sep ->
  re_sub (match_sep sep) BR (y :: r) = y :: re_sub (match_sep sep) BR r.
Proof. apply (sub_ord [] y r). constructor. Qed.

Lemma sub_lstrip r :
  lstrip_by is_space (re_sub (match_sep sep) BR r) =
  re_sub (match_sep sep) BR (lstrip_by is_space r).
Proof.
  destruct (lstrip_by_split is_space r) as [ws [E F]].
  destruct (lstrip_by is_space r) as [|y t] eqn:El.
  - rewrite app_nil_r in E. subst r. rewrite sub_ws_end by exact F.
    rewrite lstrip_all_space by exact F. reflexivity.
  - apply lstrip_by_head in El. rewrite E.
    destruct (N.eq_dec y sep) as [-> | Hne].
    + rewrite sub_sep by exact F.
      rewrite sub_sep_here. reflexivity.
    + rewrite sub_ord by assumption.
      rewrite lstrip_run by assumption.
      rewrite sub_ord_here by assumption. reflexivity.
Qed.

End OneSeparator.

Lemma slash_not_space : is_space SLASH = false.
Proof. reflexivity. Qed.

Lemma pipe_not_space : is_space PIPE = false.
Proof. reflexivity. Qed.

Lemma is_sep_cases c : is_sep c = true -> c = SLASH \/ c = PIPE.
Proof.
  unfold is_sep. intros H. apply orb_prop in H as [H | H];
    apply N.eqb_eq in H; [left | right]; exact H.
Qed.

Lemma is_sep_not c : is_sep c = false -> c <> SLASH /\ c <> PIPE.
Proof.
  unfold is_sep. intros H. apply orb_false_elim in H as [H1 H2].
  apply N.eqb_neq in H1, H2. split; assumption.
Qed.

(** The three equations of [force_linebreaks]. *)
Lemma force_ws_end ws : all_space ws -> force_linebreaks ws = ws.
Proof.
  intros F. unfold force_linebreaks.
  rewrite (sub_ws_end SLASH) by assumption.
  apply (sub_ws_end PIPE). exact F.
Qed.

Lemma force_ord ws y r :
  all_space ws -> is_space y = false -> is_sep y = false ->
  force_linebreaks (ws ++ y :: r) = ws ++ y :: force_linebreaks r.
Proof.
  intros F Hy Hs. apply is_sep_not in Hs as [H1 H2]. unfold force_linebreaks.
  rewrite (sub_ord SLASH) by assumption.
  rewrite (sub_ord PIPE) by assumption. reflexivity.
Qed.

Lemma sub_pipe_br t :
  re_sub (match_sep PIPE) BR (BR ++ t) = BR ++ re_sub (match_sep PIPE) BR t.
Proof.
  unfold BR at 2 3. cbn [app].
  rewrite !(sub_ord_here PIPE) by (try reflexivity; discriminate).
  reflexivity.
Qed.

Lemma force_sep ws c r :
  all_space ws -> is_sep c = true ->
  force_linebreaks (ws ++ c :: r) = BR ++ force_linebreaks (lstrip_by is_space r).
Proof.
  intros F Hc. unfold force_linebreaks.
  apply is_sep_cases in Hc as [-> | ->].
  - rewrite (sub_sep SLASH slash_not_space) by exact F. apply sub_pipe_br.
  - rewrite (sub_ord SLASH) by (try assumption; try reflexivity; discriminate).
    rewrite (sub_sep PIPE pipe_not_space) by exact F.
    rewrite (sub_lstrip SLASH slash_not_space). reflexivity.
Qed.

Lemma force_sep_here c r :
  is_sep c = true ->
  force_linebreaks (c :: r) = BR ++ force_linebreaks (lstrip_by is_space r).
Proof. apply (force_sep [] c r). constructor. Qed.

Lemma force_ord_here y r :
  is_space y = false -> is_sep y = false ->
  force_linebreaks (y :: r) = y :: force_linebreaks r.
Proof. apply (force_ord [] y r). constructor. Qed.

Lemma space_not_sep c : is_space c = true -> is_sep c = false.
Proof.
  intros H. unfold is_sep.
  destruct (c =? SLASH) eqn:E1; [apply N.eqb_eq in E1; subst; discriminate|].
  destruct (c =? PIPE) eqn:E2; [apply N.eqb_eq in E2; subst; discriminate|].
  reflexivity.
Qed.

(** A text without separators is left as it is. *)
Lemma force_no_sep s :
  Forall (fun c => is_sep c = false) s -> force_linebreaks s = s.
Proof.
  induction s as [ws F | ws y r F Hy IH _] using ws_run_ind; intros H.
  - apply force_ws_end. exact F.
  - apply Forall_app in H as [_ H]. inversion H as [|? ? Hs Hr]; subst.
    rewrite force_ord by assumption. rewrite IH by exact Hr. reflexivity.
Qed.

(** No separator is left in the result. *)
Lemma force_has_no_sep s :
  Forall (fun c => is_sep c = false) (force_linebreaks s).
Proof.
  induction s as [ws F | ws y r F Hy IH IHl] using ws_run_ind.
  - rewrite force_ws_end by exact F.
    eapply Forall_impl; [|exact F]. apply space_not_sep.
  - destruct (is_sep y) eqn:Hs.
    + rewrite force_sep by assumption. apply Forall_app. split; [|exact IHl].
      unfold BR. repeat constructor.
    + rewrite force_ord by assumption. apply Forall_app. split.
      * eapply Forall_impl; [|exact F]. apply space_not_sep.
      * constructor; assumption.
Qed.

(** A text with a separator gets a line break. *)
Lemma force_has_br s :
  Exists (fun c => is_sep c = true) s ->
  exists x y, force_linebreaks s = x ++ BR ++ y.
Proof.
  induction s as [ws F | ws y r F Hy IH _] using ws_run_ind; intros H.
  - apply Exists_exists in H as [c [Hin Hc]].
    unfold all_space in F. rewrite Forall_forall in F.
    apply F, space_not_sep in Hin. congruence.
  - destruct (is_sep y) eqn:Hs.
    + rewrite force_sep by assumption.
      exists [], (force_linebreaks (lstrip_by is_space r)). reflexivity.
    + rewrite force_ord by assumption.
      apply Exists_app in H as [H | H].
      * apply Exists_exists in H as [c [Hin Hc]].
        unfold all_space in F. rewrite Forall_forall in F.
        apply F, space_not_sep in Hin. congruence.
      * inversion H as [? ? Hc | ? ? Hr]; subst; [congruence|].
        destruct (IH Hr) as [x [z E]]. exists (ws ++ y :: x), z.
        rewrite E, <- app_assoc. reflexivity.
Qed.

Lemma lstrip_app_nonempty p r t :
  lstrip_by p r <> [] -> lstrip_by p (r ++ t) = lstrip_by p r ++ t.
Proof.
  induction r as [|c r IH]; simpl; [congruence|].
  destruct (p c); [exact IH | reflexivity].
Qed.

Lemma ends_clean_tail c r : ends_clean (c :: r) -> ends_clean r.
Proof. intros H x d E. apply (H (c :: x) d). rewrite E. reflexivity. Qed.

Lemma ends_clean_app a r : ends_clean (a ++ r) -> ends_clean r.
Proof.
  induction a as [|c a IH]; simpl; [tauto|].
  intros H. apply IH. eapply ends_clean_tail. exact H.
Qed.

Lemma ends_clean_all_space ws : ends_clean ws -> all_space ws -> ws = [].
Proof.
  intros Hc F. destruct ws as [|c ws] using rev_ind; [reflexivity|].
  apply Forall_app in F as [_ F]. inversion F as [|? ? Hs _]; subst.
  rewrite (Hc ws c eq_refl) in Hs. discriminate.
Qed.

(** A separator with the whitespace around it becomes one line break
    between what precedes and what follows. *)
Lemma force_split a ws1 c ws2 b :
  is_sep c = true -> all_space ws1 -> all_space ws2 ->
  ends_clean a -> head_is_space b = false ->
  force_linebreaks (a ++ ws1 ++ c :: ws2 ++ b) =
  force_linebreaks a ++ BR ++ force_linebreaks b.
Proof.
  intros Hc F1 F2 Ha Hb.
  assert (Hb' : lstrip_by is_space (ws2 ++ b) = b).
  { rewrite lstrip_by_all by exact F2. apply lstrip_by_id.
    destruct b; [exact I | exact Hb]. }
  assert (Htail : force_linebreaks (ws1 ++ c :: ws2 ++ b)
                  = BR ++ force_linebreaks b).
  { rewrite force_sep by assumption. rewrite Hb'. reflexivity. }
  revert Ha.
  induction a as [ws F | ws y r F Hy IH IHl] using ws_run_ind; intros Ha.
  - rewrite (ends_clean_all_space ws Ha F). simpl. exact Htail.
  - assert (Hr : ends_clean r).
    { apply (ends_clean_tail y), (ends_clean_app ws). exact Ha. }
    rewrite <- app_assoc. simpl app.
    destruct (is_sep y) eqn:Hs.
    + rewrite !force_sep by assumption.
      destruct (lstrip_by is_space r) as [|z t] eqn:El.
      * destruct (lstrip_by_split is_space r) as [wr [Er Fr]].
        rewrite El, app_nil_r in Er. subst wr.
        rewrite (ends_clean_all_space r Hr Fr) in *. simpl app.
        rewrite lstrip_by_all by exact F1.
        assert (Hcs : is_space c = false).
        { destruct (is_space c) eqn:E; [|reflexivity].
          apply space_not_sep in E. congruence. }
        simpl. rewrite Hcs.
        rewrite force_sep_here by assumption.
        rewrite Hb'. reflexivity.
      * rewrite lstrip_app_nonempty by (rewrite El; discriminate).
        rewrite El in *. rewrite IHl.
        -- rewrite <- app_assoc. reflexivity.
        -- destruct (lstrip_by_split is_space r) as [wr [Er _]].
           rewrite El in Er. rewrite Er in Hr.
           eapply ends_clean_app. exact Hr.
    + rewrite !force_ord by assumption. rewrite IH by exact Hr.
      rewrite <- app_assoc. reflexivity.
Qed.

(** ** The Page Renderer: claims C8, C9 and C10 *)

Section RendererProperties.

Context {U : Unicode}.

Lemma fold_left_append {A} (f : A -> pystr) (l : list A) (init : pystr) :
  fold_left (fun html x => html ++ f x) l init = init ++ concat (map f l).
Proof.
  revert init. induction l as [|x l IH]; intros init; simpl.
  - rewrite app_nil_r. reflexivity.
  - rewrite IH, <- app_assoc. reflexivity.
Qed.

#[local] Opaque u.

Lemma render_menu_card weekday_upper html dm :
  render_menu weekday_upper html dm =
  html ++ card_open (restaurant_key dm)
       ++ (if truthy (items dm) then concat (map dish_line (items dm))
           else no_menu_line weekday_upper)
       ++ card_close.
Proof.
  unfold render_menu, card_open, card_close.
  generalize (dict_get DISPLAY_NAMES (restaurant_key dm) (restaurant_key dm)).
  generalize (dict_get LOGOS (restaurant_key dm) []).
  repeat match goal with
         | |- context [u ?s] => generalize (u s); intro
         end.
  intros logo name.
  destruct (truthy logo); destruct (truthy (items dm));
    rewrite ?fold_left_append; repeat rewrite <- app_assoc;
    rewrite ?app_nil_l; reflexivity.
Qed.

Lemma render_menu_append weekday_upper html dm :
  render_menu weekday_upper html dm = html ++ render_menu weekday_upper [] dm.
Proof. rewrite !render_menu_card. reflexivity. Qed.

Lemma fold_left_render weekday_upper day_menus html :
  fold_left (render_menu weekday_upper) day_menus html =
  html ++ concat (map (render_menu weekday_upper []) day_menus).
Proof.
  revert html. induction day_menus as [|dm l IH]; intros html; simpl.
  - rewrite app_nil_r. reflexivity.
  - rewrite IH, (render_menu_append weekday_upper html dm), <- app_assoc.
    reflexivity.
Qed.

#[local] Transparent u.

Lemma error_item_force e :
  exists r, force_linebreaks (error_item e) = 40 :: r.
Proof.
  exists (force_linebreaks (tl (u "(fel vid hämtning: ") ++ e ++ u ")")).
  change (error_item e) with (40 :: tl (u "(fel vid hämtning: ") ++ e ++ u ")").
  apply force_ord_here; reflexivity.
Qed.

Lemma error_line_not_placeholder weekday_upper e :
  u "      <div class='dish'>" ++ force_linebreaks (error_item e)
    ++ u "</div>" ++ [LF]
  <> u "      <div class='dish'><em>ingen meny hittad för "
       ++ str_capitalize weekday_upper ++ u "</em></div>" ++ [LF].
Proof.
  destruct (error_item_force e) as [r Hr]. intros E.
  apply (f_equal (fun l => nth 24 l 0)) in E.
  rewrite Hr in E.
  discriminate E.
Qed.

(** C8.  The page is its head, one card per menu and its foot.  The card of
    a menu without items has, between the head of the card and its end, the
    one line [<em>ingen meny hittad för Weekday</em>] with the weekday
    capitalized, and no dish line.  The card of a menu whose one item is a
    fetch-error text has that text as a dish line, which is not the
    placeholder line. *)
Theorem render_html_no_menu_placeholder
  (updated_at weekday_upper : pystr) (day_menus : list DayMenu) :
  render_html updated_at weekday_upper day_menus =
    page_head weekday_upper
    ++ concat (map (render_menu weekday_upper []) day_menus)
    ++ page_foot updated_at
  /\ (forall html key,
        render_menu weekday_upper html (mkDayMenu key []) =
        html ++ card_open key
             ++ (u "      <div class='dish'><em>ingen meny hittad för "
                   ++ str_capitalize weekday_upper ++ u "</em></div>" ++ [LF])
             ++ card_close)
  /\ (forall html key e,
        render_menu weekday_upper html (mkDayMenu key [error_item e]) =
        html ++ card_open key
             ++ (u "      <div class='dish'>" ++ force_linebreaks (error_item e)
                   ++ u "</div>" ++ [LF])
             ++ card_close
        /\ u "      <div class='dish'>" ++ force_linebreaks (error_item e)
             ++ u "</div>" ++ [LF]
           <> u "      <div class='dish'><em>ingen meny hittad för "
                ++ str_capitalize weekday_upper ++ u "</em></div>" ++ [LF]).
Proof.
  split; [|split].
  - unfold render_html. rewrite fold_left_render, <- app_assoc. reflexivity.
  - intros html key. rewrite render_menu_card. reflexivity.
  - intros html key e. split.
    + rewrite render_menu_card.
      cbn [items truthy is_empty negb map concat restaurant_key].
      rewrite app_nil_r. reflexivity.
    + apply error_line_not_placeholder.
Qed.

(** C9.  A dish text without slash or pipe is left as it is; a slash or a
    pipe, with the whitespace around it, becomes one [<br>] between what
    precedes it and what follows it, each of which is treated in the same
    way. *)
Theorem force_linebreaks_splits :
  (forall text,
      Forall (fun c => c <> SLASH /\ c <> PIPE) text ->
      force_linebreaks text = text)
  /\ (forall a ws1 c ws2 b,
        c = SLASH \/ c = PIPE ->
        all_space ws1 -> all_space ws2 ->
        ends_clean a -> head_is_space b = false ->
        force_linebreaks (a ++ ws1 ++ c :: ws2 ++ b) =
        force_linebreaks a ++ u "<br>" ++ force_linebreaks b).
Proof.
  split.
  - intros text H. apply force_no_sep.
    eapply Forall_impl; [|exact H]. intros c [H1 H2]. unfold is_sep.
    apply N.eqb_neq in H1, H2. rewrite H1, H2. reflexivity.
  - intros a ws1 c ws2 b Hc F1 F2 Ha Hb. apply force_split; try assumption.
    unfold is_sep. destruct Hc as [-> | ->]; reflexivity.
Qed.

(** C10.  Every item of a menu with items is rendered as a dish line through
    [force_linebreaks], the error text that [main] puts in place of the menu
    of a failed source included: when the reason has a slash or a pipe, the
    line of the error entry has a [<br>] and no slash or pipe is left in
    it. *)
Theorem render_splits_error_text
  (weekday_upper html : pystr) :
  (forall key dishes, dishes <> [] ->
      render_menu weekday_upper html (mkDayMenu key dishes) =
      html ++ card_open key
           ++ concat (map (fun dish => u "      <div class='dish'>"
                                         ++ force_linebreaks dish
                                         ++ u "</div>" ++ [LF]) dishes)
           ++ card_close)
  /\ (forall get i key url e,
        nth_error SOURCE_URLS i = Some (key, url) ->
        get key url = Raise e ->
        Exists (fun c => c = SLASH \/ c = PIPE) e ->
        exists dm x y,
          nth_error (assemble get) i = Some dm
          /\ render_menu weekday_upper html dm =
             html ++ card_open key
                  ++ (u "      <div class='dish'>" ++ (x ++ u "<br>" ++ y)
                        ++ u "</div>" ++ [LF])
                  ++ card_close
          /\ x ++ u "<br>" ++ y =
             force_linebreaks (u "(fel vid hämtning: " ++ e ++ u ")")
          /\ Forall (fun c => c <> SLASH /\ c <> PIPE) (x ++ u "<br>" ++ y)).
Proof.
  split.
  - intros key dishes Hne. rewrite render_menu_card.
    cbn [items restaurant_key].
    destruct dishes; [congruence | reflexivity].
  - intros get i key url e Hi He Hsep.
    destruct (force_has_br (error_item e)) as [x [y E]].
    { unfold error_item. apply Exists_app. right. apply Exists_app. left.
      eapply Exists_impl; [|exact Hsep].
      intros c [-> | ->]; reflexivity. }
    exists (mkDayMenu key [error_item e]), x, y. repeat split.
    + rewrite assemble_nth, Hi. simpl. unfold entry_for. simpl.
      rewrite He. reflexivity.
    + rewrite render_menu_card.
      cbn [items truthy is_empty negb map concat restaurant_key].
      rewrite app_nil_r. unfold dish_line. rewrite E. reflexivity.
    + symmetry. exact E.
    + change (u "<br>") with BR. rewrite <- E.
      eapply Forall_impl; [|apply force_has_no_sep].
      intros c Hc. apply is_sep_not. exact Hc.
Qed.

End RendererProperties.

(** ** Checks by computation, for concrete texts *)

Lemma split_skipn {A} (full a b : list A) :
  full = a ++ b -> b = skipn (length a) full.
Proof.
  intros ->. rewrite skipn_app, Nat.sub_diag, skipn_all. reflexivity.
Qed.

Lemma char_in_In c s : char_in c s = true -> In c s.
Proof.
  unfold char_in. rewrite existsb_exists. intros [x [Hin E]].
  apply N.eqb_eq in E. subst. exact Hin.
Qed.

Lemma ends_clean_check a :
  match rev a with [] => true | c :: _ => negb (is_space c) end = true ->
  ends_clean a.
Proof.
  intros H x c E. subst a. rewrite rev_app_distr in H. simpl in H.
  apply negb_true_iff. exact H.
Qed.

Section Checks.

Context {U : Unicode}.

Lemma no_earlier_check day full n :
  forallb (fun k => negb (ci_starts day (skipn k full))) (seq 0 n) = true ->
  forall a b, full = a ++ b -> (length a < n)%nat -> ~ ci_begins day b.
Proof.
  intros H a b E Hlen Hb. rewrite forallb_forall in H.
  specialize (H (length a)). rewrite <- (split_skipn _ _ _ E) in H.
  apply ci_starts_spec in Hb. rewrite Hb in H.
  discriminate H. apply in_seq. lia.
Qed.

Lemma no_boundary_check blk post :
  forallb (fun k => negb (at_boundary (skipn k blk ++ post)))
          (seq 0 (length blk)) = true ->
  forall a b, blk = a ++ b -> b <> [] -> ~ boundary_here (b ++ post).
Proof.
  intros H a b E Hne Hb. rewrite forallb_forall in H.
  specialize (H (length a)). rewrite <- (split_skipn _ _ _ E) in H.
  apply at_boundary_spec in Hb. rewrite Hb in H.
  discriminate H. apply in_seq. subst blk. rewrite length_app.
  destruct b; [congruence | simpl; lia].
Qed.

End Checks.

(** ** The statements at work on the example documents *)

Lemma parse_fei_first_yielding_witness :
  let pre := [mkElement (text_tag "h2" "TISDAG") []] in
  let post := [mkElement (text_tag "strong" "tisdag") [salad_list]] in
  fei_candidates fei_week_page (u "TISDAG") = pre ++ tuesday_heading :: post
  /\ Forall (fun t => fei_candidate_items t = []) pre
  /\ fei_candidate_items tuesday_heading <> []
  /\ parse_fei fei_week_page (u "TISDAG") = fei_candidate_items tuesday_heading.
Proof.
  intros pre post.
  assert (H1 : fei_candidates fei_week_page (u "TISDAG")
               = pre ++ tuesday_heading :: post) by (vm_compute; reflexivity).
  assert (H2 : Forall (fun t => fei_candidate_items t = []) pre)
    by (repeat constructor).
  assert (H3 : fei_candidate_items tuesday_heading <> [])
    by (vm_compute; discriminate).
  split; [exact H1|]. split; [exact H2|]. split; [exact H3|].
  exact (proj1 (parse_fei_first_yielding fei_week_page (u "TISDAG"))
               pre tuesday_heading post H1 H2 H3).
Defined.

Lemma parse_fei_list_container_witness :
  parse_fei fei_list_page (u "TISDAG")
  = [u "Köttbullar"; u "Fisk med ris"; u "Soppa"].
Proof.
  pose (after_br := [dish_list; text_tag "h3" "Onsdag"]).
  pose (c := mkElement (text_tag "h3" "Tisdag")
                       (NavigableString [LF] :: Tag "br" [] :: after_br)).
  pose (ul := mkElement dish_list [text_tag "h3" "Onsdag"]).
  rewrite (parse_fei_list_container fei_list_page (u "TISDAG") [] [] c
             [mkElement (Tag "br" []) after_br]
             [mkElement (text_tag "h3" "Onsdag") []] ul).
  - vm_compute. reflexivity.
  - vm_compute. reflexivity.
  - constructor.
  - vm_compute. reflexivity.
  - repeat constructor.
  - simpl. lia.
  - reflexivity.
  - exists (hd ul (find_all ["li"%string] (el_node ul))). split.
    + vm_compute. left. reflexivity.
    + vm_compute. discriminate.
Defined.

Lemma parse_fei_stops_at_boundary_witness :
  let chain := following tuesday_heading in
  fei_candidate_items tuesday_heading =
  filter longer_than_3
    (clean_lines
       (join [LF] (filter truthy (map (get_text [SPACE])
                                      (firstn 12 (firstn 2 chain)))))).
Proof.
  intros chain.
  apply (parse_fei_stops_at_boundary tuesday_heading
           (hd tuesday_heading chain) (firstn 2 chain) (skipn 3 chain)
           (nth 2 chain tuesday_heading)).
  - vm_compute. reflexivity.
  - vm_compute. reflexivity.
  - vm_compute. reflexivity.
  - repeat constructor; apply is_stop_false; vm_compute; reflexivity.
  - apply is_stop_true. vm_compute. reflexivity.
Defined.

Lemma parse_cirkeln_block_witness :
  let blk := u "Pasta med pesto" ++ [LF] ++ u "Pris 115 kr" ++ [LF] in
  search_day (str_capitalize (u "TISDAG")) (combined_text cirkeln_week_page)
  = Some blk
  /\ parse_cirkeln cirkeln_week_page (u "TISDAG")
     = filter keep_line (clean_lines blk).
Proof.
  intros blk.
  pose (pre := u "Lunchmeny Vecka 42" ++ [LF] ++ u "Måndag" ++ [LF]
                 ++ u "Köttbullar" ++ [LF]).
  pose (post := u "Onsdag" ++ [LF] ++ u "Soppa").
  apply (parse_cirkeln_block cirkeln_week_page (u "TISDAG")
           pre (u "Tisdag") [LF] blk post).
  - vm_compute. tauto.
  - vm_compute. reflexivity.
  - vm_compute. repeat constructor.
  - apply no_earlier_check. vm_compute. reflexivity.
  - repeat constructor.
  - vm_compute. discriminate.
  - reflexivity.
  - apply no_boundary_check. vm_compute. reflexivity.
  - apply at_boundary_spec. vm_compute. reflexivity.
Defined.

Lemma parse_cirkeln_filtered_witness :
  Forall (fun ln =>
            (3 < length ln)%nat
            /\ ~ ci_begins (u "Pris") ln /\ ~ ci_begins (u "11:") ln
            /\ ~ ci_begins (u "Dagens") ln /\ ~ ci_begins (u "Veckans") ln)
         (parse_cirkeln cirkeln_week_page (u "TISDAG")).
Proof. exact (parse_cirkeln_filtered cirkeln_week_page (u "TISDAG")). Defined.

Lemma assemble_one_entry_per_source_witness :
  let get := fun key url => get_menu_for fetch_fei_down key url (u "TISDAG") in
  map restaurant_key (assemble get) = [u "FEI"; u "Cirkeln"]
  /\ nth_error (assemble get) 0
     = Some (mkDayMenu (u "FEI")
               [u "(fel vid hämtning: "
                  ++ u "404 Client Error: Not Found for url: https://www.fei.se/"
                  ++ u ")"])
  /\ nth_error (assemble get) 1
     = Some (mkDayMenu (u "Cirkeln") [u "Pasta med pesto"]).
Proof.
  intros get.
  destruct (assemble_one_entry_per_source get) as [Hkeys Hentry].
  - intros key url dm. apply get_menu_for_key.
  - split; [exact Hkeys|]. split.
    + apply (Hentry 0%nat (u "FEI")
               (u "https://www.fei.se/meny-fei-restaurant-lounge")).
      * reflexivity.
      * reflexivity.
    + apply (Hentry 1%nat (u "Cirkeln")
               (u "https://cirkelnstockholm.se/restauranger/restaurang-cirkeln/")).
      * reflexivity.
      * vm_compute. reflexivity.
Defined.

Lemma render_html_no_menu_placeholder_witness :
  render_menu (u "ONSDAG") [] (mkDayMenu (u "Cirkeln") []) =
  card_open (u "Cirkeln")
    ++ (u "      <div class='dish'><em>ingen meny hittad för " ++ u "Onsdag"
          ++ u "</em></div>" ++ [LF])
    ++ card_close.
Proof.
  exact (proj1 (proj2 (render_html_no_menu_placeholder [] (u "ONSDAG") []))
               [] (u "Cirkeln")).
Defined.

Lemma force_linebreaks_splits_witness :
  force_linebreaks (u "Fish" ++ [SPACE] ++ SLASH :: [SPACE] ++ u "Chips")
  = u "Fish" ++ u "<br>" ++ u "Chips".
Proof.
  destruct force_linebreaks_splits as [Hsame Hsplit].
  rewrite (Hsplit (u "Fish") [SPACE] SLASH [SPACE] (u "Chips")).
  - rewrite (Hsame (u "Fish")), (Hsame (u "Chips")).
    + reflexivity.
    + vm_compute. repeat constructor; discriminate.
    + vm_compute. repeat constructor; discriminate.
  - left. reflexivity.
  - repeat constructor.
  - repeat constructor.
  - apply ends_clean_check. reflexivity.
  - reflexivity.
Defined.

Lemma render_splits_error_text_witness :
  let get := fun key url => get_menu_for fetch_fei_down key url (u "TISDAG") in
  exists dm x y,
    nth_error (assemble get) 0 = Some dm
    /\ render_menu (u "TISDAG") [] dm =
       [] ++ card_open (u "FEI")
          ++ (u "      <div class='dish'>" ++ (x ++ u "<br>" ++ y)
                ++ u "</div>" ++ [LF])
          ++ card_close
    /\ x ++ u "<br>" ++ y =
       force_linebreaks
         (u "(fel vid hämtning: "
            ++ u "404 Client Error: Not Found for url: https://www.fei.se/"
            ++ u ")")
    /\ Forall (fun c => c <> SLASH /\ c <> PIPE) (x ++ u "<br>" ++ y).
Proof.
  intros get.
  apply (proj2 (render_splits_error_text (u "TISDAG") []) get 0%nat (u "FEI")
               (u "https://www.fei.se/meny-fei-restaurant-lounge")).
  - reflexivity.
  - reflexivity.
  - apply Exists_exists. exists SLASH. split.
    + apply char_in_In. vm_compute. reflexivity.
    + left. reflexivity.
Defined.

(** ** Where the claims C2 and C5 fail as they are worded *)

(** The Tuesday block is cut at the word [tisdag] inside it, which is
    neither another weekday name nor, as it is written, a weekday label:
    whether occurrences are read as written or in any letter case, the
    claimed block runs on to [Onsdag]. *)
Lemma parse_cirkeln_own_name_counterexample :
  let full := combined_text cirkeln_extra_page in
  let claimed := [LF] ++ u "Pasta med pesto" ++ [LF]
                   ++ u "Extra bara tisdag: soppa" ++ [LF] in
  claimed_block starts_with (str_capitalize (u "TISDAG")) full = Some claimed
  /\ claimed_block ci_starts (str_capitalize (u "TISDAG")) full = Some claimed
  /\ filter keep_line (clean_lines claimed)
     = [u "Pasta med pesto"; u "Extra bara tisdag: soppa"]
  /\ parse_cirkeln cirkeln_extra_page (u "TISDAG")
     = [u "Pasta med pesto"; u "Extra bara"]
  /\ parse_cirkeln cirkeln_extra_page (u "TISDAG")
     <> filter keep_line (clean_lines claimed).
Proof.
  intros full claimed.
  split; [vm_compute; reflexivity|]. split; [vm_compute; reflexivity|].
  split; [vm_compute; reflexivity|]. split; [vm_compute; reflexivity|].
  vm_compute. discriminate.
Qed.

(** The weekday name is found in lower case in the line on the serving days,
    and the block stops at the lower-case [fredag]: the result is not made
    of the lines after the heading [Måndag]. *)
Lemma parse_cirkeln_serving_days_example :
  parse_cirkeln cirkeln_hours_page (u "MÅNDAG") = [u "till"]
  /\ claimed_block starts_with (u "Måndag") (combined_text cirkeln_hours_page)
     = Some ([LF] ++ u "Köttbullar med potatismos" ++ [LF]).
Proof. split; vm_compute; reflexivity. Qed.

(** The group takes one character before the lookahead is tried: a weekday
    name right after the target's is not seen as a boundary, and the block
    of the next day is returned. *)
Lemma parse_cirkeln_empty_day_example :
  search_day (u "Tisdag") (combined_text cirkeln_closed_page)
  = Some (u "Onsdag" ++ [LF] ++ u "Fisk med ris" ++ [LF])
  /\ parse_cirkeln cirkeln_closed_page (u "TISDAG")
     = [u "Onsdag"; u "Fisk med ris"].
Proof. split; vm_compute; reflexivity. Qed.

(** The second heading [TISDAG] is followed at once by a list of three
    dishes, and the result is the running text after the first heading. *)
Lemma parse_fei_second_heading_counterexample :
  let ul_node :=
    Tag "ul" [text_tag "li" "Sill"; text_tag "li" "Lax"; text_tag "li" "Torsk"] in
  let heading := mkElement (text_tag "h3" "TISDAG") [ul_node] in
  let ul := mkElement ul_node [] in
  In heading (descendants fei_two_headings)
  /\ str_upper (strip_ws (get_text [SPACE] heading)) = u "TISDAG"
  /\ following heading = [ul]
  /\ name_in ["ul"%string] ul = true
  /\ filter truthy (map (get_text [SPACE]) (find_all ["li"%string] (el_node ul)))
     = [u "Sill"; u "Lax"; u "Torsk"]
  /\ parse_fei fei_two_headings (u "TISDAG") = [u "Pasta carbonara"]
  /\ parse_fei fei_two_headings (u "TISDAG")
     <> filter truthy (map (get_text [SPACE]) (find_all ["li"%string] (el_node ul))).
Proof.
  intros ul_node heading ul. repeat split; try (vm_compute; reflexivity).
  - vm_compute. tauto.
  - vm_compute. discriminate.
Qed.

(** * Further properties of the code *)

(** ** Extractor B: when the pattern matches, and what it captures *)

Section ExtractorBSearch.

Context {U : Unicode}.

Lemma lazy_until_split r :
  exists post,
    r = lazy_until r ++ post
    /\ boundary_here post
    /\ forall a b, lazy_until r = a ++ b -> b <> [] ->
                   ~ boundary_here (b ++ post).
Proof.
  induction r as [|c r IH]; rewrite lazy_until_eq.
  - exists []. split; [reflexivity|]. split.
    + right. right. left. reflexivity.
    + intros a b E Hb. destruct a; destruct b; try discriminate. congruence.
  - destruct (at_boundary (c :: r)) eqn:Hc.
    + exists (c :: r). split; [reflexivity|]. split.
      * apply at_boundary_spec. exact Hc.
      * intros a b E Hb. destruct a; destruct b; try discriminate. congruence.
    + destruct IH as [post [E [Hpost Hin]]]. exists post. split; [|split].
      * simpl. congruence.
      * exact Hpost.
      * intros a b Eab Hb. destruct a as [|x a]; simpl in Eab.
        -- subst b. simpl. rewrite <- E. intros Hbd.
           apply at_boundary_spec in Hbd. congruence.
        -- injection Eab as _ Eab. apply (Hin a b Eab Hb).
Qed.

Lemma skip_ws_capture_shape rest blk :
  skip_ws_capture rest = Some blk ->
  exists ws post,
    rest = ws ++ blk ++ post
    /\ all_space ws /\ blk <> [] /\ boundary_here post
    /\ forall a b, blk = a ++ b -> a <> [] -> b <> [] ->
                   ~ boundary_here (b ++ post).
Proof.
  assert (Hcap : forall s, capture_block s = Some blk ->
            exists post, s = blk ++ post /\ blk <> [] /\ boundary_here post
              /\ forall a b, blk = a ++ b -> a <> [] -> b <> [] ->
                             ~ boundary_here (b ++ post)).
  { intros [|c r] E; simpl in E; [discriminate|]. injection E as <-.
    destruct (lazy_until_split r) as [post [Er [Hpost Hin]]].
    exists post. split; [simpl; congruence|]. split; [discriminate|].
    split; [exact Hpost|].
    intros a b Eab Ha Hb. destruct a as [|x a]; [congruence|].
    injection Eab as _ Eab. apply (Hin a b Eab Hb). }
  induction rest as [|c r IH]; intros E.
  - discriminate.
  - simpl in E. destruct (is_space c) eqn:Hc.
    + destruct (skip_ws_capture r) as [g|] eqn:Hr.
      * injection E as ->.
        destruct (IH eq_refl) as [ws [post [Er H]]].
        exists (c :: ws), post. split; [simpl; congruence|].
        destruct H as [Hws H]. split; [constructor; assumption | exact H].
      * destruct (Hcap (c :: r) E) as [post [Es H]].
        exists [], post. split; [exact Es|]. split; [constructor | exact H].
    + destruct (Hcap (c :: r) E) as [post [Es H]].
      exists [], post. split; [exact Es|]. split; [constructor | exact H].
Qed.

Lemma skip_ws_capture_some rest :
  rest <> [] -> exists blk, skip_ws_capture rest = Some blk.
Proof.
  induction rest as [|c r IH]; intros Hne; [congruence|].
  simpl. destruct (is_space c); [|eexists; reflexivity].
  destruct (skip_ws_capture r); eexists; reflexivity.
Qed.

Lemma search_day_eq day s :
  search_day day s =
  match match_day_at day s with
  | Some block => Some block
  | None => match s with [] => None | _ :: r => search_day day r end
  end.
Proof. destruct s; reflexivity. Qed.

Lemma search_day_later day a s blk :
  match_day_at day s = Some blk ->
  exists blk', search_day day (a ++ s) = Some blk'.
Proof.
  intros Hs. induction a as [|c a IH]; simpl app.
  - exists blk. rewrite search_day_eq, Hs. reflexivity.
  - rewrite search_day_eq. destruct (match_day_at day (c :: a ++ s)) as [g|].
    + exists g. reflexivity.
    + exact IH.
Qed.

Lemma search_day_occurrence day full blk :
  search_day day full = Some blk ->
  exists pre name rest,
    full = pre ++ name ++ rest /\ ci_match day name /\ rest <> [].
Proof.
  assert (Hhere : forall s, match_day_at day s = Some blk ->
            exists name rest,
              s = name ++ rest /\ ci_match day name /\ rest <> []).
  { intros s Hm. unfold match_day_at in Hm.
    destruct (ci_prefix day s) as [rest|] eqn:Hp; [|discriminate].
    apply ci_prefix_spec in Hp as [name [Es Hn]].
    exists name, rest. split; [exact Es|]. split; [exact Hn|].
    intros ->. discriminate. }
  induction full as [|c full IH]; rewrite search_day_eq;
    destruct (match_day_at day _) as [g|] eqn:Hm; intros E;
    try discriminate.
  - injection E as ->. destruct (Hhere _ Hm) as [name [rest H]].
    exists [], name, rest. exact H.
  - injection E as ->. destruct (Hhere _ Hm) as [name [rest H]].
    exists [], name, rest. exact H.
  - destruct (IH E) as [pre [name [rest [Ef H]]]].
    exists (c :: pre), name, rest. split; [simpl; congruence | exact H].
Qed.

(** X1.  For a weekday label, the block that the pattern captures is never
    empty; in the combined text it comes after the first occurrence of the
    capitalized weekday name, in any letter case, and the whitespace that
    follows it, and what comes after the block begins at a boundary; no
    boundary begins inside the block after its first character. *)
Theorem search_day_block_shape (weekday_upper full blk : pystr) :
  In weekday_upper WEEKDAYS_FULL ->
  search_day (str_capitalize weekday_upper) full = Some blk ->
  exists pre name ws post,
    full = pre ++ name ++ ws ++ blk ++ post
    /\ ci_match (str_capitalize weekday_upper) name
    /\ (forall a b, full = a ++ b -> (length a < length pre)%nat ->
                    ~ ci_begins (str_capitalize weekday_upper) b)
    /\ all_space ws
    /\ blk <> []
    /\ boundary_here post
    /\ forall a b, blk = a ++ b -> a <> [] -> b <> [] ->
                   ~ boundary_here (b ++ post).
Proof.
  intros _. generalize (str_capitalize weekday_upper). intros day_name_cap.
  assert (Hhere : forall s, match_day_at day_name_cap s = Some blk ->
            exists name ws post,
              s = [] ++ name ++ ws ++ blk ++ post
              /\ ci_match day_name_cap name
              /\ (forall a b, s = a ++ b -> (length a < 0)%nat ->
                              ~ ci_begins day_name_cap b)
              /\ all_space ws /\ blk <> [] /\ boundary_here post
              /\ forall a b, blk = a ++ b -> a <> [] -> b <> [] ->
                             ~ boundary_here (b ++ post)).
  { intros s Hm. unfold match_day_at in Hm.
    destruct (ci_prefix day_name_cap s) as [rest|] eqn:Hp; [|discriminate].
    apply ci_prefix_spec in Hp as [name [Es Hn]].
    destruct (skip_ws_capture_shape _ _ Hm) as [ws [post [Er H]]].
    exists name, ws, post. split; [simpl; congruence|]. split; [exact Hn|].
    split; [intros a b _ Hlt; lia | exact H]. }
  induction full as [|c full IH]; rewrite search_day_eq;
    destruct (match_day_at day_name_cap _) as [g|] eqn:Hm; intros E;
    try discriminate.
  - injection E as ->. destruct (Hhere _ Hm) as [name [ws [post H]]].
    exists [], name, ws, post. exact H.
  - injection E as ->. destruct (Hhere _ Hm) as [name [ws [post H]]].
    exists [], name, ws, post. exact H.
  - destruct (IH E) as [pre [name [ws [post [Ef [Hn [Hfirst H]]]]]]].
    exists (c :: pre), name, ws, post.
    split; [simpl; congruence|]. split; [exact Hn|]. split; [|exact H].
    intros a b Eab Hlen Hb. destruct a as [|x a]; simpl in Eab.
    + subst b. destruct Hb as [nm [rest [Es Hnm]]].
      assert (Hp : ci_prefix day_name_cap (c :: full) = Some rest)
        by (apply ci_prefix_spec; exists nm; split; assumption).
      unfold match_day_at in Hm. rewrite Hp in Hm.
      destruct rest as [|y rest].
      * apply (f_equal (@length char)) in Es, Ef.
        apply Forall2_length in Hnm, Hn.
        destruct H as [_ [Hne _]].
        rewrite !length_app in *. simpl in Es.
        destruct blk; [congruence | simpl in *; lia].
      * destruct (skip_ws_capture_some (y :: rest)) as [g Hg]; [discriminate|].
        congruence.
    + injection Eab as _ Eab. simpl in Hlen.
      apply (Hfirst a b Eab); [lia | exact Hb].
Qed.

(** X2.  For a weekday label, the pattern finds no block exactly when the
    capitalized weekday name occurs nowhere in the combined text, in any
    letter case, with a character after it, and [parse_cirkeln] then returns
    no line. *)
Theorem parse_cirkeln_no_match (soup : node) (weekday_upper : pystr) :
  In weekday_upper WEEKDAYS_FULL ->
  (search_day (str_capitalize weekday_upper) (combined_text soup) = None
   <-> forall a name rest,
         combined_text soup = a ++ name ++ rest ->
         ci_match (str_capitalize weekday_upper) name -> rest = [])
  /\ ((forall a name rest,
         combined_text soup = a ++ name ++ rest ->
         ci_match (str_capitalize weekday_upper) name -> rest = []) ->
      parse_cirkeln soup weekday_upper = []).
Proof.
  intros _.
  assert (Hiff :
    search_day (str_capitalize weekday_upper) (combined_text soup) = None
    <-> forall a name rest,
          combined_text soup = a ++ name ++ rest ->
          ci_match (str_capitalize weekday_upper) name -> rest = []).
  { split.
    - intros Hnone a name rest Ef Hn.
      destruct rest as [|x rest]; [reflexivity|].
      destruct (skip_ws_capture_some (x :: rest)) as [blk Hb]; [discriminate|].
      assert (Hm : match_day_at (str_capitalize weekday_upper)
                     (name ++ x :: rest) = Some blk).
      { unfold match_day_at.
        assert (Hp : ci_prefix (str_capitalize weekday_upper)
                       (name ++ x :: rest) = Some (x :: rest))
          by (apply ci_prefix_spec; exists name; split;
              [reflexivity | exact Hn]).
        rewrite Hp. exact Hb. }
      destruct (search_day_later _ a _ _ Hm) as [blk' Hs].
      rewrite <- Ef in Hs. congruence.
    - intros Hall.
      destruct (search_day (str_capitalize weekday_upper) (combined_text soup))
        as [blk|] eqn:Hs; [|reflexivity].
      destruct (search_day_occurrence _ _ _ Hs)
        as [pre [name [rest [Ef [Hn Hne]]]]].
      elim Hne. apply (Hall pre name rest Ef Hn). }
  split; [exact Hiff|].
  intros Hall. apply Hiff in Hall. unfold parse_cirkeln. rewrite Hall.
  reflexivity.
Qed.

(** X3.  The lines that [parse_cirkeln] returns are normalized: their
    whitespace is single spaces and they neither begin nor end with a
    decorative character. *)
Theorem parse_cirkeln_lines_normalized (soup : node) (weekday_upper : pystr) :
  Forall (fun ln => ws_collapsed ln /\ clean_ends ln)
         (parse_cirkeln soup weekday_upper).
Proof.
  unfold parse_cirkeln.
  destruct (search_day (str_capitalize weekday_upper) (combined_text soup))
    as [block|]; [|constructor].
  apply Forall_forall. intros ln Hin. apply filter_In in Hin as [Hin _].
  unfold clean_lines in Hin. apply filter_In in Hin as [Hin _].
  apply in_map_iff in Hin as [raw [<- _]].
  split; [apply clean_line_collapsed | apply clean_line_ends].
Qed.

End ExtractorBSearch.

(** ** The Text Normalizer on its own output and on decoration *)

Lemma is_linebreak_space c : is_linebreak c = true -> is_space c = true.
Proof.
  unfold is_linebreak, char_in. simpl. rewrite !orb_true_iff.
  intros H.
  repeat (destruct H as [H | H];
          [apply N.eqb_eq in H; subst; reflexivity|]).
  discriminate.
Qed.

Lemma splitlines_from_plain cur ln rest :
  Forall (fun c => is_linebreak c = false) ln ->
  splitlines_from cur (ln ++ rest) = splitlines_from (cur ++ ln) rest.
Proof.
  intros F. revert cur. induction F as [|c ln Hc _ IH]; intros cur.
  - rewrite app_nil_r. reflexivity.
  - cbn [app splitlines_from].
    assert (Hcr : (c =? CR) = false).
    { destruct (c =? CR) eqn:E; [|reflexivity].
      apply N.eqb_eq in E. subst. discriminate. }
    rewrite Hcr, Hc, IH, <- app_assoc. reflexivity.
Qed.

Lemma splitlines_join (lines : list pystr) :
  Forall (fun ln => ln <> [] /\ Forall (fun c => is_linebreak c = false) ln)
         lines ->
  splitlines (join [LF] lines) = lines.
Proof.
  unfold splitlines. intros F. destruct lines as [|p rest]; [reflexivity|].
  revert p F. induction rest as [|q rest IH]; intros p F;
    inversion F as [|? ? [Hne Hp] Frest]; subst.
  - cbn [join]. rewrite <- (app_nil_r p) at 1.
    rewrite splitlines_from_plain by exact Hp. simpl.
    destruct p; [congruence | reflexivity].
  - change (join [LF] (p :: q :: rest))
      with (p ++ LF :: join [LF] (q :: rest)).
    rewrite splitlines_from_plain by exact Hp.
    change (splitlines_from ([] ++ p) (LF :: join [LF] (q :: rest)))
      with (p :: splitlines_from [] (join [LF] (q :: rest))).
    rewrite IH by exact Frest. reflexivity.
Qed.

Lemma ws_collapsed_tail c r : ws_collapsed (c :: r) -> ws_collapsed r.
Proof.
  intros H. apply (ws_collapsed_infix [c] r []). rewrite app_nil_r. exact H.
Qed.

Lemma sub_ws_fixed ln :
  ws_collapsed ln -> re_sub match_ws_plus [SPACE] ln = ln.
Proof.
  induction ln as [|c r IH]; intros H; [reflexivity|].
  rewrite re_sub_cons by exact match_ws_plus_consuming.
  specialize (IH (ws_collapsed_tail _ _ H)).
  simpl. destruct (is_space c) eqn:Hc.
  - destruct (H [] c r eq_refl Hc) as [-> Hr].
    rewrite lstrip_by_id, IH; [reflexivity|].
    destruct r; [exact I | exact Hr].
  - rewrite IH. reflexivity.
Qed.

Lemma strip_by_fixed p ln :
  (forall c r, ln = c :: r -> p c = false) ->
  (forall r c, ln = r ++ [c] -> p c = false) ->
  strip_by p ln = ln.
Proof.
  intros Hh Hl. unfold strip_by, rstrip_by.
  rewrite (lstrip_by_id p ln).
  - rewrite lstrip_by_id; [apply rev_involutive|].
    destruct (rev ln) as [|c r] eqn:E; [exact I|].
    apply (Hl (rev r) c). rewrite <- (rev_involutive ln), E. reflexivity.
  - destruct ln as [|c r]; [exact I | apply (Hh c r eq_refl)].
Qed.

Lemma clean_line_fixed ln :
  ws_collapsed ln -> clean_ends ln -> clean_line ln = ln.
Proof.
  intros Hc [Hh Hl]. unfold clean_line, strip_chars.
  rewrite sub_ws_fixed by exact Hc. apply strip_by_fixed; assumption.
Qed.

Lemma ws_collapsed_plain ln :
  ws_collapsed ln -> Forall (fun c => is_linebreak c = false) ln.
Proof.
  intros H. apply Forall_forall. intros c Hin.
  destruct (is_linebreak c) eqn:E; [|reflexivity].
  apply in_split in Hin as [a [b ->]].
  destruct (H a c b eq_refl (is_linebreak_space c E)) as [-> _].
  discriminate.
Qed.

(** X4.  Normalizing is idempotent: the lines that [clean_lines] returns,
    joined by newlines as [parse_fei] joins its block, are returned as they
    are. *)
Theorem clean_lines_idempotent (text : pystr) :
  clean_lines (join [LF] (clean_lines text)) = clean_lines text.
Proof.
  assert (Hall : Forall (fun ln => ln <> [] /\ ws_collapsed ln /\ clean_ends ln)
                        (clean_lines text)).
  { apply Forall_forall. intros ln Hin. unfold clean_lines in Hin.
    apply filter_In in Hin as [Hin Ht]. apply in_map_iff in Hin as [raw [<- _]].
    split; [apply truthy_true; exact Ht|].
    split; [apply clean_line_collapsed | apply clean_line_ends]. }
  unfold clean_lines at 1. rewrite splitlines_join.
  - induction Hall as [|ln l [Hne [Hc He]] _ IH]; [reflexivity|].
    simpl. rewrite (clean_line_fixed ln Hc He).
    destruct ln; [congruence|]. simpl. f_equal. exact IH.
  - eapply Forall_impl; [|exact Hall].
    intros ln [Hne [Hc _]]. split; [exact Hne | apply ws_collapsed_plain, Hc].
Qed.

Lemma splitlines_from_chars cur s ln c :
  In ln (splitlines_from cur s) -> In c ln -> In c (cur ++ s).
Proof.
  remember (length s) as n eqn:Hn.
  assert (Hle : (length s <= n)%nat) by lia. clear Hn.
  revert cur s Hle. induction n as [|n IH]; intros cur s Hle Hln Hc.
  - destruct s; [|simpl in Hle; lia].
    simpl in Hln. destruct cur; simpl in Hln; [contradiction|].
    destruct Hln as [<- | []]. rewrite app_nil_r. exact Hc.
  - destruct s as [|x s].
    { simpl in Hln. destruct cur; simpl in Hln; [contradiction|].
      destruct Hln as [<- | []]. rewrite app_nil_r. exact Hc. }
    simpl in Hle.
    assert (Hcut : In ln (cur :: splitlines_from [] s) -> In c (cur ++ x :: s)).
    { intros [<- | Hin]; [apply in_or_app; left; exact Hc|].
      apply in_or_app. right. right.
      apply (IH [] s); [lia | exact Hin | exact Hc]. }
    cbn [splitlines_from] in Hln. destruct (x =? CR).
    + destruct s as [|d s'].
      * apply Hcut. exact Hln.
      * destruct (d =? LF); [|apply Hcut; exact Hln].
        destruct Hln as [<- | Hin]; [apply in_or_app; left; exact Hc|].
        apply in_or_app. right. right. right.
        apply (IH [] s'); [simpl in Hle; lia | exact Hin | exact Hc].
    + destruct (is_linebreak x); [apply Hcut; exact Hln|].
      assert (H : In c ((cur ++ [x]) ++ s))
        by (apply (IH (cur ++ [x]) s); [lia | exact Hln | exact Hc]).
      rewrite <- app_assoc in H. exact H.
Qed.

Lemma sub_ws_chars s c :
  In c (re_sub match_ws_plus [SPACE] s) ->
  c = SPACE \/ (In c s /\ is_space c = false).
Proof.
  induction s as [| x r rest E IH | x r E IH]
    using (scan_ind match_ws_plus match_ws_plus_consuming).
  - contradiction.
  - rewrite re_sub_cons, E by exact match_ws_plus_consuming.
    simpl in E. destruct (is_space x); [|discriminate]. injection E as <-.
    intros [<- | Hin]; [left; reflexivity|].
    destruct (IH Hin) as [-> | [Hr Hs]]; [left; reflexivity|].
    right. split; [|exact Hs]. right.
    destruct (lstrip_by_split is_space r) as [a [Er _]].
    rewrite Er. apply in_or_app. right. exact Hr.
  - rewrite re_sub_cons, E by exact match_ws_plus_consuming.
    simpl in E. destruct (is_space x) eqn:Hx; [discriminate|].
    intros [<- | Hin].
    + right. split; [left; reflexivity | exact Hx].
    + destruct (IH Hin) as [-> | [Hr Hs]]; [left; reflexivity|].
      right. split; [right; exact Hr | exact Hs].
Qed.

Lemma strip_by_all p s :
  Forall (fun c => p c = true) s -> strip_by p s = [].
Proof.
  intros F. unfold strip_by, rstrip_by.
  rewrite <- (app_nil_r s), lstrip_by_all by exact F. reflexivity.
Qed.

(** X5.  A text made of whitespace and decorative characters only (the
    empty text among them) has no line left. *)
Theorem clean_lines_decoration_only (text : pystr) :
  Forall (fun c => is_space c = true \/ char_in c STRIP_CHARS = true) text ->
  clean_lines text = [].
Proof.
  intros F. unfold clean_lines.
  assert (Hline : forall ln, In ln (splitlines text) -> clean_line ln = []).
  { intros ln Hln. unfold clean_line, strip_chars. apply strip_by_all.
    apply Forall_forall. intros c Hc.
    apply sub_ws_chars in Hc as [-> | [Hin Hs]]; [reflexivity|].
    assert (Ht : In c ([] ++ text))
      by (apply (splitlines_from_chars [] text ln c Hln Hin)).
    rewrite Forall_forall in F. destruct (F c Ht) as [H | H];
      [congruence | exact H]. }
  induction (splitlines text) as [|ln l IH]; [reflexivity|].
  simpl. rewrite (Hline ln (or_introl eq_refl)). simpl.
  apply IH. intros ln' Hin. apply Hline. right. exact Hin.
Qed.

(** The description of the normalizer in C4 leaves no choice: a list that
    is made from the physical lines in that way is the result of
    [clean_lines]. *)
Lemma collapsed_from_unique raw out :
  collapsed_from raw out -> out = re_sub match_ws_plus [SPACE] raw.
Proof.
  induction 1 as [| c r out Hc _ IH | ws r out Hne Hws Hr _ IH].
  - reflexivity.
  - rewrite re_sub_cons by exact match_ws_plus_consuming.
    simpl. rewrite Hc, IH. reflexivity.
  - destruct ws as [|w ws]; [congruence|].
    apply Forall_cons_iff in Hws as [Hw Hws'].
    cbn [app]. rewrite re_sub_cons by exact match_ws_plus_consuming.
    simpl. rewrite Hw, lstrip_by_all by exact Hws'.
    rewrite lstrip_by_id, <- IH; [reflexivity|].
    destruct r; [exact I | exact Hr].
Qed.

Lemma stripped_from_unique s out :
  stripped_from s out -> out = strip_chars STRIP_CHARS s.
Proof.
  intros [a [b [-> [Fa [Fb [Hh Hl]]]]]].
  unfold strip_chars, strip_by, rstrip_by.
  rewrite lstrip_by_all by exact Fa.
  destruct out as [|c o].
  - simpl. rewrite <- (app_nil_r b), lstrip_by_all by exact Fb. reflexivity.
  - rewrite (lstrip_by_id _ ((c :: o) ++ b)) by (apply (Hh c o eq_refl)).
    rewrite rev_app_distr, lstrip_by_all by (apply Forall_rev; exact Fb).
    rewrite lstrip_by_id; [symmetry; apply rev_involutive|].
    destruct (rev (c :: o)) as [|d t] eqn:E; [exact I|].
    apply (Hl (rev t) d). rewrite <- (rev_involutive (c :: o)), E. reflexivity.
Qed.

Lemma physical_lines_unique text lines :
  physical_lines text lines -> lines = splitlines text.
Proof.
  unfold splitlines.
  induction 1 as [| ln Hne Hln | ln br rest lines Hln Hbr Hcr _ IH].
  - reflexivity.
  - rewrite <- (app_nil_r ln) at 2.
    rewrite splitlines_from_plain by exact Hln. simpl.
    destruct ln; [congruence | reflexivity].
  - rewrite splitlines_from_plain by exact Hln. rewrite IH. cbn [app].
    destruct Hbr as [-> | [c [-> Hc]]]; [reflexivity|].
    cbn [app splitlines_from]. destruct (c =? CR) eqn:E.
    + apply N.eqb_eq in E. subst c. destruct rest as [|d rest']; [reflexivity|].
      destruct (d =? LF) eqn:Ed; [|reflexivity].
      apply N.eqb_eq in Ed. subst d. elim (Hcr eq_refl rest'). reflexivity.
    + rewrite Hc. reflexivity.
Qed.

Lemma kept_from_unique (l k : list pystr) :
  kept_from (fun ln => ln <> []) l k -> k = filter truthy l.
Proof.
  induction 1 as [| x l k Hx _ IH | x l k Hx _ IH]; simpl.
  - reflexivity.
  - destruct x; [congruence|]. simpl. f_equal. exact IH.
  - destruct x; [exact IH|]. elim Hx. discriminate.
Qed.

Lemma normalizer_determined text raw cleaned out :
  physical_lines text raw ->
  Forall2 normalized_from raw cleaned ->
  kept_from (fun ln => ln <> []) cleaned out ->
  out = clean_lines text.
Proof.
  intros Hraw Hnorm Hkept. unfold clean_lines.
  rewrite (kept_from_unique _ _ Hkept), <- (physical_lines_unique _ _ Hraw).
  f_equal. clear Hraw Hkept.
  induction Hnorm as [|r c raw cleaned [mid [Hc Hs]] _ IH]; [reflexivity|].
  simpl. f_equal; [|exact IH].
  unfold clean_line. rewrite <- (collapsed_from_unique _ _ Hc).
  apply stripped_from_unique. exact Hs.
Qed.

(** ** The line breaks of the renderer *)

(** X6.  No slash and no pipe is left in a dish text once
    [force_linebreaks] has been applied, whatever the text. *)
Theorem force_linebreaks_no_separator (text : pystr) :
  Forall (fun c => c <> SLASH /\ c <> PIPE) (force_linebreaks text).
Proof.
  eapply Forall_impl; [|apply force_has_no_sep].
  intros c Hc. apply is_sep_not. exact Hc.
Qed.

(** X7.  Applying [force_linebreaks] twice is the same as applying it
    once. *)
Theorem force_linebreaks_idempotent (text : pystr) :
  force_linebreaks (force_linebreaks text) = force_linebreaks text.
Proof.
  induction text as [ws F | ws y r F Hy IH IHl] using ws_run_ind.
  - rewrite (force_ws_end ws F). apply force_ws_end. exact F.
  - destruct (is_sep y) eqn:Hs.
    + rewrite force_sep by assumption. unfold BR at 1. cbn [app].
      rewrite !force_ord_here by (try reflexivity; discriminate).
      rewrite IHl. reflexivity.
    + rewrite force_ord by assumption.
      rewrite force_ord by assumption. rewrite IH. reflexivity.
Qed.

(** ** Keys without a registry entry *)

Lemma dict_get_missing (d : list (pystr * pystr)) (key default : pystr) :
  ~ In key (map fst d) -> dict_get d key default = default.
Proof.
  induction d as [|[k v] d IH]; intros Hno; [reflexivity|].
  simpl. destruct (pystr_eqb k key) eqn:E.
  - apply pystr_eqb_eq in E. elim Hno. left. exact E.
  - apply IH. intros Hin. apply Hno. right. exact Hin.
Qed.

Section RendererEdges.

Context {U : Unicode}.

(** X8.  A menu whose key has no display name and no logo in the registry
    is rendered under the key itself, without an [img] element. *)
Theorem render_menu_unregistered_key
  (weekday_upper html key : pystr) (dishes : list pystr) :
  ~ In key (map fst DISPLAY_NAMES) ->
  ~ In key (map fst LOGOS) ->
  render_menu weekday_upper html (mkDayMenu key dishes) =
  html ++ (u "    <div class='rest'>" ++ [LF]
             ++ u "      <div class='head'>" ++ [LF]
             ++ u "        <div class='name'>" ++ key ++ u "</div>" ++ [LF]
             ++ u "      </div>" ++ [LF])
       ++ (if truthy dishes then concat (map dish_line dishes)
           else no_menu_line weekday_upper)
       ++ u "    </div>" ++ [LF].
Proof.
  intros Hname Hlogo. rewrite render_menu_card. unfold card_open, card_close.
  cbn [restaurant_key items].
  rewrite (dict_get_missing DISPLAY_NAMES key key Hname).
  rewrite (dict_get_missing LOGOS key [] Hlogo).
  cbn [truthy is_empty negb]. rewrite app_nil_l. reflexivity.
Qed.

End RendererEdges.

(** ** Extractor A and the Assembler: edges and invariants *)

Section AssemblerEdges.

Context {U : Unicode}.

Lemma longer_than_3_nonempty ln : longer_than_3 ln = true -> ln <> [].
Proof. intros H ->. discriminate. Qed.

Lemma fei_candidate_items_nonempty tag :
  Forall (fun it => it <> []) (fei_candidate_items tag).
Proof.
  unfold fei_candidate_items.
  destruct (skip_blank 6 (find_next_sibling tag)) as [next_el|]; [|constructor].
  destruct (name_in ["ul"%string] next_el).
  - unfold list_items. apply Forall_forall. intros it Hin.
    apply filter_In in Hin as [_ Ht]. apply truthy_true. exact Ht.
  - apply Forall_forall. intros it Hin.
    apply filter_In in Hin as [_ Ht]. apply longer_than_3_nonempty. exact Ht.
Qed.

Lemma fei_loop_nonempty cands acc :
  Forall (fun it => it <> []) acc ->
  Forall (fun it => it <> []) (fei_loop cands acc).
Proof.
  revert acc. induction cands as [|tag rest IH]; intros acc Hacc; [exact Hacc|].
  assert (H : Forall (fun it => it <> []) (acc ++ fei_candidate_items tag))
    by (apply Forall_app; split;
        [exact Hacc | apply fei_candidate_items_nonempty]).
  cbn [fei_loop]. destruct (truthy _); [exact H | apply IH; exact H].
Qed.

Lemma parse_cirkeln_nonempty soup weekday_upper :
  Forall (fun it => it <> []) (parse_cirkeln soup weekday_upper).
Proof.
  unfold parse_cirkeln.
  destruct (search_day (str_capitalize weekday_upper) (combined_text soup));
    [|constructor].
  apply Forall_forall. intros it Hin. apply filter_In in Hin as [_ Hk].
  unfold keep_line in Hk. apply andb_prop in Hk as [Hk _].
  apply longer_than_3_nonempty. exact Hk.
Qed.

(** X9.  Whatever the network returns, no menu that [main] assembles has an
    empty string among its items: a dish, or the error text, is never
    empty. *)
Theorem assemble_items_nonempty
  (fetch : pystr -> result node) (weekday_upper : pystr) :
  Forall (fun dm => Forall (fun it => it <> []) (items dm))
         (assemble (fun key url => get_menu_for fetch key url weekday_upper)).
Proof.
  unfold assemble. rewrite main_loop_map, app_nil_l.
  apply Forall_forall. intros dm Hin.
  apply in_map_iff in Hin as [[key url] [<- _]].
  unfold entry_for, get_menu_for. cbn [fst snd].
  destruct (fetch url) as [soup|e].
  - cbn [items].
    destruct (pystr_eqb (str_lower key) (u "fei")).
    + unfold parse_fei. apply fei_loop_nonempty. constructor.
    + destruct (pystr_eqb (str_lower key) (u "cirkeln")).
      * apply parse_cirkeln_nonempty.
      * constructor.
  - cbn [items]. constructor; [|constructor].
    destruct (error_item_force e) as [r Hr]. intros E. rewrite E in Hr.
    discriminate Hr.
Qed.

(** X10.  When no candidate heading has an element after it among its
    siblings (and so when the weekday is not a heading of the page at all),
    [parse_fei] returns no item. *)
Theorem parse_fei_no_content (soup : node) (weekday_upper : pystr) :
  (forall tag,
      In tag (descendants soup) ->
      name_in ["h2"; "h3"; "h4"; "strong"; "p"]%string tag = true ->
      str_upper (strip_ws (get_text [SPACE] tag)) = weekday_upper ->
      following tag = []) ->
  parse_fei soup weekday_upper = [].
Proof.
  intros Hno. unfold parse_fei. apply fei_loop_none.
  apply Forall_forall. intros tag Hin.
  unfold fei_candidates in Hin. apply filter_In in Hin as [Hin Htxt].
  unfold find_all in Hin. apply filter_In in Hin as [Hin Hname].
  apply pystr_eqb_eq in Htxt.
  specialize (Hno tag Hin Hname Htxt).
  pose proof (find_next_sibling_following tag) as Hn. rewrite Hno in Hn.
  unfold fei_candidate_items. rewrite Hn. reflexivity.
Qed.


Lemma today_weekday_label weekday :
  (weekday < 7)%nat -> In (today_weekday_sv_upper weekday) WEEKDAYS_FULL.
Proof.
  intros H. unfold today_weekday_sv_upper. apply nth_In.
  change (length WEEKDAYS_FULL) with 7%nat. exact H.
Qed.

(** X12.  For every day of the week and whatever the network returns,
    the page that [main] writes is the head with the weekday label, the card
    of FEI, the card of Cirkeln and the foot with the time stamp: a failure
    of a source never removes its card or the card of the other source. *)
Theorem main_page_two_cards
  (fetch : pystr -> result node) (weekday : nat) (updated_at : pystr) :
  (weekday < 7)%nat ->
  exists items_fei items_cirkeln,
    In (today_weekday_sv_upper weekday) WEEKDAYS_FULL
    /\ main fetch weekday updated_at =
       page_head (today_weekday_sv_upper weekday)
       ++ render_menu (today_weekday_sv_upper weekday) []
            (mkDayMenu (u "FEI") items_fei)
       ++ render_menu (today_weekday_sv_upper weekday) []
            (mkDayMenu (u "Cirkeln") items_cirkeln)
       ++ page_foot updated_at.
Proof.
  intros Hday.
  set (wd := today_weekday_sv_upper weekday).
  set (get := fun key url => get_menu_for fetch key url wd).
  assert (Hentry : forall key url,
            entry_for get (key, url)
            = mkDayMenu key (items (entry_for get (key, url)))).
  { intros key url. unfold entry_for. cbn [fst snd].
    destruct (get key url) as [dm|e] eqn:E; [|reflexivity].
    apply get_menu_for_key in E. destruct dm as [k its]. simpl in E.
    subst k. reflexivity. }
  assert (E : SOURCE_URLS =
              [(u "FEI", u "https://www.fei.se/meny-fei-restaurant-lounge");
               (u "Cirkeln",
                u "https://cirkelnstockholm.se/restauranger/restaurang-cirkeln/")])
    by reflexivity.
  eexists. eexists. split; [apply today_weekday_label; exact Hday|].
  unfold main. fold wd. fold get. unfold render_html, assemble.
  rewrite main_loop_map, app_nil_l, E. cbn [map].
  rewrite fold_left_render. cbn [map concat].
  rewrite (Hentry (u "FEI")), (Hentry (u "Cirkeln")).
  rewrite app_nil_r, <- !app_assoc. reflexivity.
Qed.

End AssemblerEdges.

(** ** The running text of Extractor A and the anchor of Extractor B *)

Section ExtractorEdges.

Context {U : Unicode}.

(** X13.  In the running-text branch every item of a candidate is a
    normalized line of more than 3 characters. *)
Theorem fei_running_text_items (tag next_el : element) :
  skip_blank 6 (find_next_sibling tag) = Some next_el ->
  name_in ["ul"%string] next_el = false ->
  Forall (fun ln => (3 < length ln)%nat /\ ws_collapsed ln /\ clean_ends ln)
         (fei_candidate_items tag).
Proof.
  intros Hskip Hul. unfold fei_candidate_items. rewrite Hskip, Hul.
  apply Forall_forall. intros ln Hin. apply filter_In in Hin as [Hin Hlen].
  unfold clean_lines in Hin. apply filter_In in Hin as [Hin _].
  apply in_map_iff in Hin as [raw [<- _]].
  split; [apply Nat.ltb_lt; exact Hlen|].
  split; [apply clean_line_collapsed | apply clean_line_ends].
Qed.

(** X14.  The walk over the running text collects at most as many texts
    as it has steps (12 in [parse_fei]); none of them is empty and none is a
    stop marker. *)
Theorem walk_block_bounded (steps : nat) (walker : option element) :
  (length (walk_block steps walker) <= steps)%nat
  /\ Forall (fun t => t <> [] /\ ~ boundary_text t) (walk_block steps walker).
Proof.
  revert walker. induction steps as [|n IH]; intros walker.
  - split; [simpl; lia | constructor].
  - destruct walker as [w|]; [|split; [simpl; lia | constructor]].
    cbn [walk_block]. cbv zeta.
    destruct (is_stop (get_text [SPACE] w)) eqn:Hs;
      [split; [simpl; lia | constructor]|].
    destruct (IH (find_next_sibling w)) as [Hlen Hall].
    destruct (truthy (get_text [SPACE] w)) eqn:Ht.
    + split; [simpl; lia|]. constructor; [|exact Hall].
      split; [apply truthy_true; exact Ht | apply is_stop_false; exact Hs].
    + split; [simpl; lia | exact Hall].
Qed.




End ExtractorEdges.

(** ** The further properties at work on the example documents *)

Section FurtherChecks.

Context {U : Unicode}.

Lemma no_occurrence_check day full :
  forallb (fun k => negb (ci_starts day (skipn k full)))
          (seq 0 (S (length full))) = true ->
  forall a name rest,
    full = a ++ name ++ rest -> ci_match day name -> rest = [].
Proof.
  intros H a name rest E Hn. exfalso.
  apply (no_earlier_check day full (S (length full)) H a (name ++ rest) E).
  - rewrite E, length_app. lia.
  - exists name, rest. split; [reflexivity | exact Hn].
Qed.

Lemma no_content_check soup weekday_upper :
  forallb
    (fun tag =>
       negb (name_in ["h2"; "h3"; "h4"; "strong"; "p"]%string tag
             && pystr_eqb (str_upper (strip_ws (get_text [SPACE] tag)))
                          weekday_upper)
       || is_empty (following tag))
    (descendants soup) = true ->
  forall tag,
    In tag (descendants soup) ->
    name_in ["h2"; "h3"; "h4"; "strong"; "p"]%string tag = true ->
    str_upper (strip_ws (get_text [SPACE] tag)) = weekday_upper ->
    following tag = [].
Proof.
  intros H tag Hin Hname Htxt. rewrite forallb_forall in H.
  specialize (H tag Hin). rewrite Hname in H.
  apply pystr_eqb_eq in Htxt. rewrite Htxt in H. simpl in H.
  destruct (following tag); [reflexivity | discriminate].
Qed.



End FurtherChecks.

Lemma decoration_check text :
  forallb (fun c => is_space c || char_in c STRIP_CHARS) text = true ->
  Forall (fun c => is_space c = true \/ char_in c STRIP_CHARS = true) text.
Proof.
  intros H. rewrite forallb_forall in H. apply Forall_forall.
  intros c Hin. apply orb_prop. apply H. exact Hin.
Qed.

Lemma search_day_block_shape_witness :
  let full := combined_text cirkeln_closed_page in
  let blk := u "Onsdag" ++ [LF] ++ u "Fisk med ris" ++ [LF] in
  exists pre name ws post,
    full = pre ++ name ++ ws ++ blk ++ post
    /\ ci_match (str_capitalize (u "TISDAG")) name
    /\ (forall a b, full = a ++ b -> (length a < length pre)%nat ->
                    ~ ci_begins (str_capitalize (u "TISDAG")) b)
    /\ all_space ws
    /\ blk <> []
    /\ boundary_here post
    /\ forall a b, blk = a ++ b -> a <> [] -> b <> [] ->
                   ~ boundary_here (b ++ post).
Proof.
  intros full blk.
  apply (search_day_block_shape (u "TISDAG") full blk).
  - vm_compute. tauto.
  - vm_compute. reflexivity.
Defined.

Lemma parse_cirkeln_no_match_witness :
  parse_cirkeln cirkeln_week_page (u "LÖRDAG") = [].
Proof.
  assert (Hday : In (u "LÖRDAG") WEEKDAYS_FULL) by (vm_compute; tauto).
  apply (proj2 (parse_cirkeln_no_match cirkeln_week_page (u "LÖRDAG") Hday)).
  apply no_occurrence_check. vm_compute. reflexivity.
Defined.

Lemma clean_lines_decoration_only_witness :
  clean_lines (u "  • – — " ++ [LF] ++ u "-- .. **" ++ [CR; LF]) = [].
Proof.
  apply clean_lines_decoration_only.
  apply decoration_check. vm_compute. reflexivity.
Defined.

Lemma render_menu_unregistered_key_witness :
  render_menu (u "ONSDAG") [] (mkDayMenu (u "fei") []) =
  [] ++ (u "    <div class='rest'>" ++ [LF]
           ++ u "      <div class='head'>" ++ [LF]
           ++ u "        <div class='name'>" ++ u "fei" ++ u "</div>" ++ [LF]
           ++ u "      </div>" ++ [LF])
     ++ (if truthy (@nil pystr) then concat (map dish_line [])
         else no_menu_line (u "ONSDAG"))
     ++ u "    </div>" ++ [LF].
Proof.
  apply (render_menu_unregistered_key (u "ONSDAG") [] (u "fei") []).
  - vm_compute. intros [H | [H | []]]; discriminate H.
  - vm_compute. intros [H | [H | []]]; discriminate H.
Defined.

Lemma parse_fei_no_content_witness :
  parse_fei (document [Tag "div" [text_tag "h2" "TISDAG"];
                       Tag "div" [text_tag "p" "Pannbiff"]])
            (u "TISDAG") = [].
Proof.
  apply parse_fei_no_content.
  apply no_content_check. vm_compute. reflexivity.
Defined.


Lemma main_page_two_cards_witness :
  exists items_fei items_cirkeln,
    In (today_weekday_sv_upper 1) WEEKDAYS_FULL
    /\ main fetch_fei_down 1 (u "2026-11-04 12:00") =
       page_head (today_weekday_sv_upper 1)
       ++ render_menu (today_weekday_sv_upper 1) []
            (mkDayMenu (u "FEI") items_fei)
       ++ render_menu (today_weekday_sv_upper 1) []
            (mkDayMenu (u "Cirkeln") items_cirkeln)
       ++ page_foot (u "2026-11-04 12:00").
Proof.
  apply (main_page_two_cards fetch_fei_down 1 (u "2026-11-04 12:00")). lia.
Defined.

Lemma fei_running_text_items_witness :
  Forall (fun ln => (3 < length ln)%nat /\ ws_collapsed ln /\ clean_ends ln)
         (fei_candidate_items tuesday_heading).
Proof.
  apply (fei_running_text_items tuesday_heading
           (hd tuesday_heading (following tuesday_heading))).
  - vm_compute. reflexivity.
  - vm_compute. reflexivity.
Defined.

